(** * Verification of [src/util/testing-utils.ts] (ea-framework-js)

    A shallow embedding of the test harness of the external-adapter
    framework: the in-memory Redis substitute with its lock script, the
    metrics snapshot parser, the fake-clock drivers, the test adapter's
    guarded operations and the strict-access stub.

    JavaScript strings are modelled by [string] (sequences of 8-bit code
    units), objects used as dictionaries by [gmap string _], and the
    asynchronous drivers by state passing over the state of the JavaScript
    realm, with fuel for their unbounded loops. *)

From Stdlib Require Import Ascii.
From stdpp Require Import gmap strings list sorting.

Local Open Scope Z_scope.

(** ** Part I: the embedding *)

(** What a call leaves behind: a returned value or a thrown one. *)
Inductive completion (A : Type) : Type :=
| Return (a : A)
| Throw (message : string).
Arguments Return {A} a.
Arguments Throw {A} message.

(** *** JavaScript string primitives used by the source *)

Module JsString.

(** The double-quote character, code unit 34. *)
Definition dq : ascii := "034"%char.

(** The backslash character, code unit 92. *)
Definition backslash : ascii := "092"%char.

(** [s.startsWith(p)] *)
Definition startsWith (s p : string) : bool := String.prefix p s.

(** [s.includes(sub)]: [sub] occurs at some position of [s]. *)
Fixpoint includes (s sub : string) : bool :=
  String.prefix sub s ||
  match s with
  | EmptyString => false
  | String _ s' => includes s' sub
  end.

(** Puts a character in front of the first piece of a split. *)
Definition cons_head (c : ascii) (pieces : list string) : list string :=
  match pieces with
  | p :: ps => String c p :: ps
  | [] => [String c EmptyString]
  end.

(** [s.split(sep)] for a non-empty separator: the pieces between the
    leftmost, non-overlapping occurrences of [sep]. [skip] counts the
    characters of an occurrence that are still to be passed over. *)
Fixpoint split_aux (sep : string) (skip : nat) (s : string) : list string :=
  match s with
  | EmptyString => [EmptyString]
  | String c s' =>
      match skip with
      | S k => split_aux sep k s'
      | O =>
          if String.prefix sep s
          then EmptyString :: split_aux sep (Nat.pred (String.length sep)) s'
          else cons_head c (split_aux sep 0 s')
      end
  end.

Definition split (sep s : string) : list string := split_aux sep 0 s.

(** [pieces.join(sep)] *)
Definition join (sep : string) (pieces : list string) : string :=
  String.concat sep pieces.

(** A string of which every character passes a test. *)
Fixpoint all_chars (p : ascii -> bool) (s : string) : bool :=
  match s with
  | EmptyString => true
  | String c s' => p c && all_chars p s'
  end.

(** A text between double quotes. *)
Definition quoted (s : string) : string := String dq (s +:+ String dq "").

(** The separator of the label list: a double quote and a comma. *)
Definition quote_comma : string := String dq ",".

End JsString.

(** *** RedisMock: the in-memory store and the lock script *)

Module RedisMock.
Import JsString.

Section Store.

(** [LocalCache<string>] lives in [src/cache/local.ts]; the mock only calls
    its [get], [set] and [delete]; its [cache.size] is what a test reads
    before and after a failed [set]. *)
Context {LocalCache : Type}.
Variable cache_get : LocalCache -> string -> option string.
Variable cache_set : LocalCache -> string -> string -> Z -> LocalCache.
Variable cache_delete : LocalCache -> string -> LocalCache.
Variable cache_size : LocalCache -> nat.

(** The two fields of the class: [store] and the lock table [keys], a
    plain object used as a dictionary from resource key to holder that starts
    as the empty object literal. The record keeps the properties the object
    holds itself. *)
Record RedisMock : Type := mkRedisMock {
  store : LocalCache;
  keys : gmap string string;
}.

(** The names every object inherits from [Object.prototype]. *)
Definition Object_prototype_members : list string :=
  [ "constructor"; "__defineGetter__"; "__defineSetter__"; "hasOwnProperty";
    "__lookupGetter__"; "__lookupSetter__"; "isPrototypeOf";
    "propertyIsEnumerable"; "toString"; "valueOf"; "__proto__";
    "toLocaleString" ].

(** What [this.keys[redlockKey]] reads: the holder the table has under the
    key, else the member inherited under that name (a function or the
    prototype itself, never a string and never [undefined]), else
    [undefined]. *)
Inductive member : Type :=
| Holder (instanceKey : string)
| Inherited
| Undefined.

#[global] Instance member_eq_dec : EqDecision member.
Proof. solve_decision. Defined.

Definition read_key (table : gmap string string) (redlockKey : string) : member :=
  match table !! redlockKey with
  | Some holder => Holder holder
  | None =>
      if bool_decide (redlockKey ∈ Object_prototype_members) then Inherited
      else Undefined
  end.

Definition get (r : RedisMock) (key : string) : option string :=
  cache_get (store r) key.

Definition del (r : RedisMock) (key : string) : RedisMock :=
  mkRedisMock (cache_delete (store r) key) (keys r).

(** [set(key, value, 'PX', ttl)]: the result and the mock afterwards. *)
Definition set (r : RedisMock) (key value : string) (ttl : Z)
  : completion unit * RedisMock :=
  if includes key "force-error"
  then (Throw "anything", r)
  else (Return tt, mkRedisMock (cache_set (store r) key value ttl) (keys r)).

Definition setExternalAdapterResponse (r : RedisMock) (key value : string) (ttl : Z)
  : completion unit * RedisMock :=
  set r key value ttl.

(** [evalsha(sha, numberOfKeys, [redlockKey, instanceKey, ttl])] *)
Definition evalsha (r : RedisMock) (sha : string) (numberOfKeys : Z)
    (args : string * string * Z) : Z * RedisMock :=
  let '(redlockKey, instanceKey, _) := args in
  if decide (read_key (keys r) redlockKey = Holder instanceKey) then (1, r)
  else if decide (read_key (keys r) redlockKey = Undefined)
  then (1, mkRedisMock (store r) (<[redlockKey := instanceKey]> (keys r)))
  else (0, r).

Definition pexpire (r : RedisMock) : RedisMock := r.
Definition quit (r : RedisMock) : RedisMock := r.

(** One [evalsha] call after another, from the left. *)
Definition evalsha_all (r : RedisMock)
    (calls : list (string * Z * (string * string * Z))) : RedisMock :=
  foldl (fun r' '(sha, n, args) => (evalsha r' sha n args).2) r calls.

End Store.

End RedisMock.

(** *** TestMetrics: the metrics snapshot parser *)

Module TestMetrics.
Import JsString.

(** [replaceQuotes(s)], a global regular-expression replace: every
    backslash followed by a double quote becomes one single quote, scanning
    from the left. *)
Fixpoint replaceQuotes (s : string) : string :=
  match s with
  | EmptyString => EmptyString
  | String c t =>
      match t with
      | String c' r =>
          if Ascii.eqb c backslash && Ascii.eqb c' dq
          then String "'"%char (replaceQuotes r)
          else String c (replaceQuotes t)
      | EmptyString => String c EmptyString
      end
  end.

(** The character class [[a-z_]]. *)
Definition is_name_char (c : ascii) : bool :=
  Ascii.eqb c "_"%char ||
  ((97 <=? nat_of_ascii c)%nat && (nat_of_ascii c <=? 122)%nat).

(** What [.] of a regular expression refuses: the line terminators (of
    which the 8-bit code units hold LF and CR). *)
Definition is_line_terminator (c : ascii) : bool :=
  Ascii.eqb c "010"%char || Ascii.eqb c "013"%char.

(** The longest prefix of name characters, and what follows it. *)
Fixpoint span_name (s : string) : string * string :=
  match s with
  | EmptyString => (EmptyString, EmptyString)
  | String c s' =>
      if is_name_char c
      then let '(n, r) := span_name s' in (String c n, r)
      else (EmptyString, s)
  end.

(** A string without its last character, and that character. *)
Fixpoint unsnoc (s : string) : option (string * ascii) :=
  match s with
  | EmptyString => None
  | String c s' =>
      match unsnoc s' with
      | None => Some (EmptyString, c)
      | Some (i, l) => Some (String c i, l)
      end
  end.

(** [nameAndLabels.match(re)] for the anchored expression of the source (a
    name of one or more characters of [[a-z_]], an opening brace, any
    characters but line terminators, a closing brace): the two groups, or
    [None] for [null]. The greedy name group must stop where the brace
    stands, and the greedy label group must leave the last character to the
    closing brace. *)
Definition match_nameAndLabels (s : string) : option (string * string) :=
  match span_name s with
  | (String c n, String b body) =>
      if Ascii.eqb b "{"%char then
        match unsnoc body with
        | Some (rawLabels, e) =>
            if Ascii.eqb e "}"%char
               && all_chars (fun c => negb (is_line_terminator c)) rawLabels
            then Some (String c n, rawLabels)
            else None
        | None => None
        end
      else None
  | _ => None
  end.

(** [a.localeCompare(b)] is the comparison of the collation of the host,
    which depends on its locale: negative, zero or positive. It is taken as
    a parameter, with what the language asks of a comparison function given
    to [sort]: it is consistent, that is, swapping the arguments swaps the
    sign, and the order is transitive. Different texts may compare equal. *)
Class LocaleCompare : Type := {
  localeCompare : string -> string -> Z;
  localeCompare_swap :
    forall a b, Z.sgn (localeCompare b a) = - Z.sgn (localeCompare a b);
  localeCompare_trans :
    forall a b c, localeCompare a b <= 0 -> localeCompare b c <= 0 ->
                  localeCompare a c <= 0;
}.

(** The filter of the constructor: [label !== '' && !label.startsWith('app_')]. *)
Definition keep_label (label : string) : bool :=
  negb (String.eqb label "") && negb (startsWith label "app_").

Section Collation.

Context {collation : LocaleCompare}.

(** [sort((a, b) => a.localeCompare(b))]: [Array.prototype.sort] is stable,
    and with a consistent comparison function its result is determined: the
    elements in ascending order, those that compare equal in the order they
    came in. That arrangement is computed here by insertion from the
    right. *)
Fixpoint insert_sorted (x : string) (sorted : list string) : list string :=
  match sorted with
  | [] => [x]
  | y :: rest =>
      if localeCompare x y <=? 0 then x :: sorted else y :: insert_sorted x rest
  end.

Definition sort_localeCompare (l : list string) : list string :=
  foldr insert_sorted [] l.

(** What the constructor makes of the pieces of the split label list:
    it filters them, sorts them, appends a double quote to each and joins
    them with commas. *)
Definition canonical (fragments : list string) : string :=
  join ","
    ((fun s => s +:+ String dq "") <$>
       sort_localeCompare (filter (fun label => keep_label label = true) fragments)).

(** The canonical label string of the constructor, from [rawLabels]. *)
Definition sortedLabels_of_raw (rawLabels : string) : string :=
  canonical (split quote_comma (replaceQuotes rawLabels)).

(** The body of the constructor's loop for a line that is not skipped: the
    key and the text of the value ([None] for [undefined]), or [None] when
    destructuring the failed match throws. *)
Definition sample_of_line (line : string) : option (string * option string) :=
  let pieces := split " " line in
  let nameAndLabels := hd "" pieces in
  let stringValue := tail pieces !! 0%nat in
  match match_nameAndLabels nameAndLabels with
  | Some (name, rawLabels) =>
      Some (name +:+ "|" +:+ sortedLabels_of_raw rawLabels, stringValue)
  | None => None
  end.

End Collation.

(** The lines the constructor passes over. *)
Definition skipped (line : string) : bool :=
  startsWith line "#" || startsWith line "nodejs_" || startsWith line "process_"
  || String.eqb line "".

(** A [Map<string, number>] keeps its keys in the order of their first
    insertion. *)
Fixpoint map_set {V} (m : list (string * V)) (k : string) (v : V) : list (string * V) :=
  match m with
  | [] => [(k, v)]
  | (k', v') :: m' => if String.eqb k' k then (k, v) :: m' else (k', v') :: map_set m' k v
  end.

Fixpoint map_get {V} (m : list (string * V)) (k : string) : option V :=
  match m with
  | [] => None
  | (k', v') :: m' => if String.eqb k' k then Some v' else map_get m' k
  end.

Section Numbers.

Context {collation : LocaleCompare}.

(** JavaScript numbers and [Number(_)] of a string or of [undefined]. *)
Context {number : Type}.
Variable Number : option string -> number.

Fixpoint parse_lines (lines : list string) (m : list (string * number))
  : completion (list (string * number)) :=
  match lines with
  | [] => Return m
  | line :: rest =>
      if skipped line then parse_lines rest m
      else
        match sample_of_line line with
        | Some (fullName, stringValue) =>
            parse_lines rest (map_set m fullName (Number stringValue))
        | None => Throw "TypeError: object null is not iterable"
        end
  end.

(** [new TestMetrics(data)]: the [map] field. *)
Definition constructor (data : string) : completion (list (string * number)) :=
  parse_lines (split (String "010" "") data) [].

(** The label string [get] builds from its [labels] argument, whose
    entries are listed in the order [Object.entries] gives them. *)
Definition sortedLabels_of_query (labels : option (list (string * string))) : string :=
  match labels with
  | Some entries =>
      join ","
        (sort_localeCompare
           ((fun '(labelName, value) =>
               labelName +:+ "=" +:+ String dq (replaceQuotes value +:+ String dq ""))
              <$> entries))
  | None => ""
  end.

Definition newline_tab : string := String "010" (String "009" "").

(** [get(t, { name, labels })]: the metric found, and the failures reported
    to the test context [t] so far. *)
Definition get (m : list (string * number)) (t : list string)
    (name : string) (labels : option (list (string * string)))
  : option number * list string :=
  let sortedLabels := sortedLabels_of_query labels in
  let metric := map_get m (name +:+ "|" +:+ sortedLabels) in
  match metric with
  | Some _ => (metric, t)
  | None =>
      let sameNameMetrics :=
        (fun k => newline_tab +:+ k) <$>
          filter (fun k => startsWith k name = true) (fst <$> m) in
      let possibleSolutionMessage :=
        match sameNameMetrics with
        | [] => "Check the metric name and labels (no other metrics with the same name were found)"
        | _ => "Perhaps you meant one of these: " +:+ join "," sameNameMetrics
        end in
      (metric,
       t ++ ["Metric not found:" +:+ newline_tab +:+ name +:+ "|" +:+ sortedLabels
             +:+ String "010" possibleSolutionMessage])
  end.

End Numbers.

(** A label of the exposition format: its name, the equals sign and its
    value between double quotes, with the value as it stands in the text
    (escapes included). *)
Record label : Type := mkLabel {
  label_name : string;
  label_value : string;
}.

Definition label_text (l : label) : string :=
  label_name l +:+ "=" +:+ String dq (label_value l +:+ String dq "").

(** The sample line [name{labels} value] of the exposition format. *)
Definition sample_line (name : string) (labels : list label) (value : string) : string :=
  name +:+ "{" +:+ join "," (label_text <$> labels) +:+ "} " +:+ value.

(** A metric name as the expression wants it: one or more of [[a-z_]]. *)
Definition metric_name (name : string) : bool :=
  negb (String.eqb name "") && all_chars is_name_char name.

(** The last character of a string is [c]. *)
Fixpoint ends_with (c : ascii) (s : string) : bool :=
  match s with
  | EmptyString => false
  | String a s' =>
      match s' with
      | EmptyString => Ascii.eqb a c
      | String _ _ => ends_with c s'
      end
  end.

(** The text of a label up to its closing quote. *)
Definition fragment (l : label) : string :=
  label_name l +:+ "=" +:+ String dq (label_value l).

(** The fragment as the constructor sorts it: with its quotes unescaped. *)
Definition canonical_fragment (l : label) : string := replaceQuotes (fragment l).

(** The characters that neither end the head of the line nor stop the
    dot of the regular expression. *)
Definition head_char (c : ascii) : bool :=
  negb (Ascii.eqb c " ") && negb (is_line_terminator c).

(** A label that the constructor takes apart as it stands: no space and no
    line terminator in its text, no backslash before its closing quote, and
    no quote followed by a comma left inside it once the escaped quotes are
    replaced. *)
Definition plain_label (l : label) : bool :=
  all_chars head_char (label_text l)
  && negb (ends_with backslash (fragment l))
  && negb (includes (canonical_fragment l) quote_comma).

(** A label of the application-identifier namespace. *)
Definition app_label (l : label) : bool := startsWith (label_name l) "app_".

(** The fragments that the constructor sorts for a sample line with these
    labels. *)
Definition kept_fragments (labels : list label) : list string :=
  filter (fun fragment => keep_label fragment = true)
    (split quote_comma (replaceQuotes (join "," (label_text <$> labels)))).

(** No two different texts of the list compare equal. *)
Definition distinct_in_collation {collation : LocaleCompare} (l : list string) : Prop :=
  forall x y, x ∈ l -> y ∈ l -> localeCompare x y = 0 -> x = y.

(** A collation for the examples: the order of the code units. *)
Definition code_unit_compare (a b : string) : Z :=
  match String.compare a b with
  | Eq => 0
  | Lt => -1
  | Gt => 1
  end.

Definition code_unit_collation : LocaleCompare.
Proof.
  refine {| localeCompare := code_unit_compare |}.
  - intros a b. unfold code_unit_compare. rewrite (String.compare_antisym a b).
    by destruct (String.compare b a).
  - intros a b c Hab Hbc.
    assert (forall x y, code_unit_compare x y <= 0 <-> String.le x y) as Hle.
    { intros x y. unfold code_unit_compare, String.le, String.leb.
      destruct (String.compare x y); cbn; intuition lia. }
    apply Hle. transitivity b; by apply Hle.
Defined.

(** The labels of a sample as the framework exposes it, the application
    label last, and the same labels with the first two swapped. *)
Definition feed_labels : list label :=
  [mkLabel "feed_id" "eth"; mkLabel "transport" "ws"; mkLabel "app_name" "ea"].

Definition feed_labels_swapped : list label :=
  [mkLabel "transport" "ws"; mkLabel "feed_id" "eth"; mkLabel "app_name" "ea"].

(** A label value with a closing brace and a space in it: the head of the
    line ends at the space. *)
Definition path_labels : list label :=
  [mkLabel "path" "/{id} GET"; mkLabel "status" "200"; mkLabel "app_name" "ea"].

Definition path_labels_swapped : list label :=
  [mkLabel "status" "200"; mkLabel "path" "/{id} GET"; mkLabel "app_name" "ea"].

End TestMetrics.

(** *** The fake-clock drivers and the test adapter *)

Module Harness.

(** What a run does to the clock, the service and the test context. *)
Inductive event : Type :=
| EvTickAsync (ms : Z)
| EvNextAsync (now_after : Z)
| EvSleep (ms : Z)
| EvStepValidation (i : Z) (holds : bool)
| EvInject
| EvIsStatusCode (actual expected : Z)
| EvAssertEqualResponses.

(** The state of the JavaScript realm together with the run so far. *)
Record state (World : Type) : Type := mkState {
  world : World;
  trace : list event;
}.
Arguments mkState {World} world trace.
Arguments world {World} s.
Arguments trace {World} s.

(** A call returns, throws, or is still looping when the fuel is spent. *)
Inductive outcome (World A : Type) : Type :=
| Returned (a : A) (s : state World)
| Thrown (message : string) (s : state World)
| Hung (s : state World).
Arguments Returned {World A} a s.
Arguments Thrown {World A} message s.
Arguments Hung {World A} s.

Definition M (World A : Type) : Type := state World -> outcome World A.

Definition ret {World A} (a : A) : M World A := fun s => Returned a s.

Definition throw {World A} (message : string) : M World A :=
  fun s => Thrown message s.

Definition bind {World A B} (m : M World A) (k : A -> M World B) : M World B :=
  fun s =>
    match m s with
    | Returned a s' => k a s'
    | Thrown message s' => Thrown message s'
    | Hung s' => Hung s'
    end.

#[global] Instance M_ret {World} : MRet (M World) := @ret World.
#[global] Instance M_bind {World} : MBind (M World) :=
  fun A B k m => bind m k.

Definition final_state {World A} (o : outcome World A) : state World :=
  match o with
  | Returned _ s | Thrown _ s | Hung s => s
  end.

Definition log {World} (e : event) : M World unit :=
  fun s => Returned tt (mkState (world s) (trace s ++ [e])).

(** How often the step validation was called in a run. *)
Definition is_stepValidation (e : event) : bool :=
  match e with EvStepValidation _ _ => true | _ => false end.

Definition stepValidation_calls (tr : list event) : nat :=
  length (filter (λ e, is_stepValidation e = true) tr).

(** How often the clock was advanced in a run. *)
Definition is_clock_advance (e : event) : bool :=
  match e with EvTickAsync _ | EvNextAsync _ => true | _ => false end.

Definition clock_advances (tr : list event) : nat :=
  length (filter (λ e, is_clock_advance e = true) tr).

(** The events of one gated advancement that passes after the clock
    readings [nexts]: a failed check before each advancement, then the check
    that holds. *)
Fixpoint gate_trace (i : Z) (nexts : list Z) : list event :=
  match nexts with
  | [] => [EvStepValidation i true]
  | t :: rest => EvStepValidation i false :: EvNextAsync t :: gate_trace i rest
  end.

(** The events of a gated advancement that is still waiting after the
    clock readings [nexts]: a failed check, and another failed check after
    each advancement. *)
Fixpoint stalled_gate_trace (i : Z) (nexts : list Z) : list event :=
  match nexts with
  | [] => [EvStepValidation i false]
  | t :: rest => EvStepValidation i false :: EvNextAsync t :: stalled_gate_trace i rest
  end.

(** The events of the iterations from [i] on, one list of clock readings
    for each. *)
Fixpoint periodic_trace (interval : Z) (i : Z) (rounds : list (list Z)) : list event :=
  match rounds with
  | [] => []
  | nexts :: rest =>
      EvTickAsync interval :: gate_trace i nexts ++ periodic_trace interval (i + 1) rest
  end.

(** The installed fake clock ([@sinonjs/fake-timers]) and [sleep] of
    [util/index], as they act on the realm. An awaited call is one step of
    the realm: everything that runs until the caller resumes. *)
Class InstalledClock (World : Type) : Type := {
  now : World -> Z;
  tickAsync : Z -> World -> World;
  nextAsync : World -> World;
  sleep : Z -> World -> World;
}.

(** A promise, by what the realm holds for it: [None] while unsettled. *)
Definition Promise (World T : Type) : Type := World -> option T.

Section Drivers.

Context {World : Type} `{InstalledClock World}.

(** [await clock.tickAsync(ms)] *)
Definition clock_tickAsync (ms : Z) : M World unit :=
  fun s => Returned tt (mkState (tickAsync ms (world s)) (trace s ++ [EvTickAsync ms])).

(** [await clock.nextAsync()] *)
Definition clock_nextAsync : M World unit :=
  fun s =>
    let w := nextAsync (world s) in
    Returned tt (mkState w (trace s ++ [EvNextAsync (now w)])).

(** [clock.now] *)
Definition clock_now : M World Z := fun s => Returned (now (world s)) s.

(** [sleep(ms)], not awaited. *)
Definition call_sleep (ms : Z) : M World unit :=
  fun s => Returned tt (mkState (sleep ms (world s)) (trace s ++ [EvSleep ms])).

(** [runAllUntil(clock, isComplete)] *)
Fixpoint runAllUntil (fuel : nat) (isComplete : M World bool) : M World unit :=
  fun s =>
    match isComplete s with
    | Returned true s' => Returned tt s'
    | Returned false s' =>
        match fuel with
        | O => Hung s'
        | S fuel' => (clock_nextAsync;; runAllUntil fuel' isComplete) s'
        end
    | Thrown message s' => Thrown message s'
    | Hung s' => Hung s'
    end.

(** The arrow function [() => stepValidation(i)], with its call recorded. *)
Definition call_stepValidation (stepValidation : Z -> M World bool) (i : Z)
  : M World bool :=
  holds ← stepValidation i;
  log (EvStepValidation i holds);;
  mret holds.

(** The [for] loop of [runPeriodicAsyncBackgroundExecution], from [i] on,
    with [remaining] iterations left. *)
Fixpoint periodic_loop (fuel : nat) (interval : Z) (stepValidation : Z -> M World bool)
    (i : Z) (remaining : nat) : M World unit :=
  match remaining with
  | O => mret tt
  | S remaining' =>
      clock_tickAsync interval;;
      runAllUntil fuel (call_stepValidation stepValidation i);;
      periodic_loop fuel interval stepValidation (i + 1) remaining'
  end.

(** [runPeriodicAsyncBackgroundExecution(clock, { interval, times, stepValidation })] *)
Definition runPeriodicAsyncBackgroundExecution (fuel : nat) (interval times : Z)
    (stepValidation : Z -> M World bool) : M World unit :=
  periodic_loop fuel interval stepValidation 0 (Z.to_nat times).

(** [runAllUntilTime(clock, time)] *)
Definition runAllUntilTime (fuel : nat) (time : Z) : M World unit :=
  t0 ← clock_now;
  let targetTime := t0 + time in
  call_sleep time;;
  runAllUntil fuel (t ← clock_now; mret (negb (t <? targetTime))).

(** The loop of [waitUntilResolved]. The variable [result] is assigned in
    the continuation of [await fn()] inside [execute], which runs no earlier
    than the first [await] of the caller: the first test of the loop sees
    [undefined] whatever [fn] returned, and every later test comes after an
    awaited [nextAsync]. A round of the loop is therefore one advancement
    of the clock followed by a look at what the promise of [fn] holds in the
    realm by then, [undefined] while it is unsettled. *)
Fixpoint wait_loop {T} (is_undefined : T -> bool) (fuel : nat)
    (result : Promise World T) : M World T :=
  fun s =>
    match fuel with
    | O => Hung s
    | S fuel' =>
        (clock_nextAsync;;
         ((fun s1 =>
             match result (world s1) with
             | Some v =>
                 if is_undefined v then wait_loop is_undefined fuel' result s1
                 else Returned v s1
             | None => wait_loop is_undefined fuel' result s1
             end) : M World T)) s
    end.

(** [waitUntilResolved(clock, fn)]: [execute()] runs [fn] up to its
    first suspension and is not awaited, so an exception of [fn] rejects
    the promise of [execute] and never reaches [result]. *)
Definition waitUntilResolved {T} (is_undefined : T -> bool) (fuel : nat)
    (fn : M World (Promise World T)) : M World T :=
  fun s =>
    match fn s with
    | Returned result s' => wait_loop is_undefined fuel result s'
    | Thrown _ s' => wait_loop is_undefined fuel (fun _ => None) s'
    | Hung s' => Hung s'
    end.

(** [await p] where nothing else drives the realm. *)
Definition await {T} (p : Promise World T) : M World T :=
  fun s =>
    match p (world s) with
    | Some v => Returned v s
    | None => Hung s
    end.

(** A side-effect-free predicate on the realm, as a callback. *)
Definition pure_check (p : World → bool) : M World bool :=
  λ s, Returned (p (world s)) s.

(** The realm after [n] awaited [nextAsync] calls. *)
Fixpoint advance (n : nat) (s : state World) : state World :=
  match n with
  | O => s
  | S n' =>
      let w := nextAsync (world s) in
      advance n' (mkState w (trace s ++ [EvNextAsync (now w)]))
  end.

End Drivers.

Section Adapter.

Context {World : Type} `{InstalledClock World}.

(** The collaborators of [TestAdapter]: the Fastify instances, the request
    payloads and responses, the mock cache and the metrics registry, parsed
    with the collation of the host. *)
Context {collation : TestMetrics.LocaleCompare}.
Context {FastifyInstance ClockRef MockCache Payload Response Expected number : Type}.
Variable inject : FastifyInstance -> Payload -> World -> World * Promise World Response.
Variable statusCode : Response -> Z.
Variable cache_size : MockCache -> World -> Z.
Variable register_metrics : World -> string.
Variable Number : option string -> number.

Record TestAdapter : Type := mkTestAdapter {
  api : FastifyInstance;
  metricsApi : option FastifyInstance;
  clock : option ClockRef;
  mockCache : option MockCache;
}.

(** [new TestAdapter(api, adapter, metricsApi, clock, cache)]: the cache is
    kept as [mockCache] only when it is an instance of [MockCache]. *)
Definition new_TestAdapter {Cache : Type} (as_MockCache : Cache -> option MockCache)
    (api : FastifyInstance) (metricsApi : option FastifyInstance)
    (clock : option ClockRef) (cache : option Cache) : TestAdapter :=
  mkTestAdapter api metricsApi clock (cache ≫= as_MockCache).

(** [makeRequest] of [request]: [this.api.inject({...})]. *)
Definition makeRequest (a : TestAdapter) (data : Payload)
  : M World (Promise World Response) :=
  fun s =>
    let '(w, p) := inject (api a) data (world s) in
    Returned p (mkState w (trace s ++ [EvInject])).

(** [request(data, headers)]: the promise it returns. *)
Definition request (fuel : nat) (a : TestAdapter) (data : Payload)
  : M World (Promise World Response) :=
  match clock a with
  | None => makeRequest a data
  | Some _ =>
      r ← waitUntilResolved (fun _ => false) fuel (makeRequest a data);
      mret (fun _ => Some r)
  end.

Definition only_with (what : string) : string :=
  "The " +:+ JsString.quoted "startBackgroundExecuteThenGetResponse"
  +:+ " method should only be called if " +:+ what.

(** [waitForCache(expectedSize)] *)
Definition waitForCache (fuel : nat) (a : TestAdapter) (expectedSize : option Z)
  : M World unit :=
  match clock a with
  | None => throw (only_with "a fake clock is installed")
  | Some _ =>
      runAllUntil fuel
        (match mockCache a with
         | None => throw "TypeError: Cannot read properties of undefined (reading 'cache')"
         | Some cache =>
             fun s =>
               let wanted :=
                 match expectedSize with
                 | Some n => if n =? 0 then 1 else n
                 | None => 1
                 end in
               Returned (wanted <=? cache_size cache (world s)) s
         end)
  end.

(** [startBackgroundExecuteThenGetResponse(t, params)] *)
Definition startBackgroundExecuteThenGetResponse (fuel : nat) (a : TestAdapter)
    (requestData : Payload) (expectedResponse : option Expected)
    (expectedCacheSize : option Z) : M World Response :=
  match clock a with
  | None => throw (only_with "a fake clock is installed")
  | Some _ =>
      match mockCache a with
      | None => throw (only_with "a mock cache was provided")
      | Some _ =>
          error ← request fuel a requestData ≫= await;
          log (EvIsStatusCode (statusCode error) 504);;
          waitForCache fuel a expectedCacheSize;;
          response ← request fuel a requestData ≫= await;
          match expectedResponse with
          | Some _ => log EvAssertEqualResponses
          | None => log (EvIsStatusCode (statusCode response) 200)
          end;;
          mret response
      end
  end.

(** [getMetrics()] *)
Definition getMetrics (a : TestAdapter) : M World (list (string * number)) :=
  match metricsApi a with
  | None =>
      throw "An attempt was made to fetch metrics, but the adapter was started without metrics enabled"
  | Some _ =>
      fun s =>
        match TestMetrics.constructor Number (register_metrics (world s)) with
        | Return m => Returned m s
        | Throw message => Thrown message s
        end
  end.

End Adapter.

End Harness.

(** *** The virtual clock *)

Module VirtualClock.

Section Simulation.

(** The system under test: its state, and what a timer callback does when
    fired at a given time, with the microtasks it triggers: the state it
    leaves and the timers it registers (delay and callback). *)
Context {App Callback : Type}.
Variable fire : Callback -> Z -> App -> App * list (Z * Callback).

(** The bound on the timers one [tick] fires. *)
Variable loopLimit : nat.

(** Modelled from the spec: a timer registration is a deadline and a
    callback; the callback either settles the promise of a [sleep] or is one
    of the system under test. *)
Inductive action : Type :=
| Resolve
| Run (callback : Callback).

Record timer : Type := mkTimer {
  callAt : Z;
  act : action;
}.

(** Modelled from the spec: the VirtualClock ([@sinonjs/fake-timers] in the
    repository, not part of it): the current virtual time and the pending
    timer registrations, in registration order. *)
Record clock : Type := mkClock {
  virtual_time : Z;
  timers : list timer;
  app : App;
}.

(** Modelled from the spec: [setTimeout(callback, delay)] under the
    installed clock registers a timer [delay] from now. *)
Definition setTimeout (c : clock) (delay : Z) (a : action) : clock :=
  mkClock (virtual_time c) (timers c ++ [mkTimer (virtual_time c + Z.max 0 delay) a]) (app c).

(** Modelled from the spec: the pending timer with the earliest deadline,
    ties broken by registration order, and the timers left. *)
Fixpoint pick (ts : list timer) : option (timer * list timer) :=
  match ts with
  | [] => None
  | t :: ts' =>
      match pick ts' with
      | None => Some (t, [])
      | Some (u, rest) =>
          if callAt u <? callAt t then Some (u, t :: rest) else Some (t, ts')
      end
  end.

(** Modelled from the spec: [nextAsync()] advances to the next pending
    timer's deadline (a no-op if none is pending), fires it, and flushes the
    resulting microtasks. *)
Definition fire_next (c : clock) : clock :=
  match pick (timers c) with
  | None => c
  | Some (t, rest) =>
      match act t with
      | Resolve => mkClock (callAt t) rest (app c)
      | Run callback =>
          let '(app', registered) := fire callback (callAt t) (app c) in
          foldl (fun c' '(delay, cb) => setTimeout c' delay (Run cb))
            (mkClock (callAt t) rest app') registered
      end
  end.

(** Modelled from the spec: [sleep(ms)] of [util/index] (not among the
    sources) fires a promise that resolves at the requested time: a timer
    registered [ms] from now. *)
Definition register_sleep (ms : Z) (c : clock) : clock := setTimeout c ms Resolve.

(** Modelled from the spec: [tick(ms)] advances by [ms], firing all due
    timers in deadline order. *)
Fixpoint tick_loop (limit : nat) (target : Z) (c : clock) : clock :=
  match limit with
  | O => c
  | S limit' =>
      match pick (timers c) with
      | Some (t, _) =>
          if callAt t <=? target then tick_loop limit' target (fire_next c) else c
      | None => c
      end
  end.

Definition tick_by (ms : Z) (c : clock) : clock :=
  let c' := tick_loop loopLimit (virtual_time c + ms) c in
  mkClock (virtual_time c + ms) (timers c') (app c').

Definition clock_InstalledClock : Harness.InstalledClock clock := {|
  Harness.now := virtual_time;
  Harness.tickAsync := tick_by;
  Harness.nextAsync := fire_next;
  Harness.sleep := register_sleep;
|}.

(** While the clock is short of [target], a timer is pending at [target]. *)
Definition sentinel_pending (target : Z) (c : clock) : Prop :=
  virtual_time c < target → ∃ t, t ∈ timers c ∧ callAt t = target.

End Simulation.

End VirtualClock.

(** *** makeStub: the strict-access wrapper *)

Module Stub.

(** A property key: a string or a symbol (with its description). *)
Inductive prop : Type :=
| PString (s : string)
| PSymbol (description : string).

#[global] Instance prop_eq_dec : EqDecision prop.
Proof. solve_decision. Defined.

(** JavaScript values; an object lists the properties that [in] finds on
    it. *)
#[warnings="-register-all"]
Inductive value : Type :=
| VUndefined
| VNull
| VBoolean (b : bool)
| VNumber (z : Z)
| VString (s : string)
| VFunction (name : string)
| VObject (properties : list (prop * value)).

(** [typeof obj] *)
Definition typeof (v : value) : string :=
  match v with
  | VUndefined => "undefined"
  | VNull => "object"
  | VBoolean _ => "boolean"
  | VNumber _ => "number"
  | VString _ => "string"
  | VFunction _ => "function"
  | VObject _ => "object"
  end.

Fixpoint lookup_prop (properties : list (prop * value)) (p : prop) : option value :=
  match properties with
  | [] => None
  | (q, v) :: rest => if decide (q = p) then Some v else lookup_prop rest p
  end.

(** [prop in target] *)
Definition has_prop (properties : list (prop * value)) (p : prop) : bool :=
  bool_decide (is_Some (lookup_prop properties p)).

(** [target[prop]] *)
Definition get_prop (properties : list (prop * value)) (p : prop) : value :=
  default VUndefined (lookup_prop properties p).

(** [String(prop)] *)
Definition String_of_prop (p : prop) : string :=
  match p with
  | PString s => s
  | PSymbol description => "Symbol(" +:+ description +:+ ")"
  end.

Definition allowedUndefinedStubProps : list string :=
  [ "$$typeof"; "nodeType"; "tagName"; "hasAttribute";
    "@@__IMMUTABLE_ITERABLE__@@"; "@@__IMMUTABLE_RECORD__@@";
    "toJSON"; "asymmetricMatch"; "then" ].

Definition isStubPropAllowedUndefined (p : prop) : bool :=
  match p with
  | PSymbol _ => true
  | PString s => bool_decide (s ∈ allowedUndefinedStubProps)
  end.

(** What [makeStub] returns: its argument, or a proxy of it that remembers
    the path [name]. *)
Inductive stub : Type :=
| Plain (v : value)
| Proxy (name : string) (target : list (prop * value)).

(** [makeStub(name, obj)] *)
Definition makeStub (name : string) (obj : value) : stub :=
  match obj with
  | VObject target => Proxy name target
  | _ => Plain obj
  end.

Definition does_not_exist (propName : string) : string :=
  "Property '" +:+ propName +:+ "' does not exist".

(** The [get] trap of the proxy: the result, and what it writes with
    [console.error]. *)
Definition proxy_get (name : string) (target : list (prop * value)) (p : prop)
  : completion stub * list string :=
  let propName := name +:+ "." +:+ String_of_prop p in
  if negb (has_prop target p) && negb (isStubPropAllowedUndefined p)
  then (Throw (does_not_exist propName), [does_not_exist propName])
  else (Return (makeStub propName (get_prop target p)), []).

(** Reading property [p] of what [makeStub] returned. A read on a value
    that is not wrapped is the language's own: a [TypeError] on [null] and
    [undefined], and otherwise whatever the value's prototype holds, which
    is not a stub's business. *)
Definition read (builtin : value -> prop -> value) (x : stub) (p : prop)
  : completion stub * list string :=
  match x with
  | Proxy name target => proxy_get name target p
  | Plain VNull => (Throw "TypeError: Cannot read properties of null", [])
  | Plain VUndefined => (Throw "TypeError: Cannot read properties of undefined", [])
  | Plain v => (Return (Plain (builtin v p)), [])
  end.

End Stub.

(** *** A service with a periodic background job *)

Module Scenario.
Import Harness VirtualClock.

(** The timer callbacks of the service: the periodic job, due every
    1000 ms, hands its work to a secondary timer 10 ms later, which
    completes it. *)
Inductive job : Type :=
| Periodic
| Secondary.

(** The state of the service is the number of completed jobs. *)
Definition fire (j : job) (t : Z) (completed : nat) : nat * list (Z * job) :=
  match j with
  | Periodic => (completed, [(1000, Periodic); (10, Secondary)])
  | Secondary => (S completed, [])
  end.

Definition service : Type := clock (App := nat) (Callback := job).

Definition started : service := mkClock 0 [mkTimer 1000 (Run Periodic)] 0%nat.

#[global] Instance service_clock : InstalledClock service :=
  clock_InstalledClock fire 1000.

(** Iteration [i] is validated once [i + 1] jobs are completed. *)
Definition stepValidation (i : Z) (c : service) : bool :=
  i + 1 <=? Z.of_nat (app c).

Definition three_iterations : outcome service unit :=
  runPeriodicAsyncBackgroundExecution 5 1000 3
    (λ i, pure_check (stepValidation i)) (mkState started []).

End Scenario.

(** *** RedisMock: sequences of commands and the command chain *)

Module RedisCommands.
Import JsString RedisMock.

Section Store.

Context {LocalCache : Type}.
Variable cache_set : LocalCache -> string -> string -> Z -> LocalCache.
Variable cache_delete : LocalCache -> string -> LocalCache.

#[local] Abbreviation Mock := (RedisMock (LocalCache := LocalCache)).

(** A call of one of the methods of the mock that act on its state. *)
Inductive command : Type :=
| CmdSet (key value : string) (ttl : Z)
| CmdSetExternalAdapterResponse (key value : string) (ttl : Z)
| CmdDel (key : string)
| CmdEvalsha (sha : string) (numberOfKeys : Z) (args : string * string * Z)
| CmdPexpire
| CmdQuit.

(** The mock after a call; a [set] that throws is caught by the caller. *)
Definition run_command (r : Mock) (c : command) : Mock :=
  match c with
  | CmdSet key value ttl => (set cache_set r key value ttl).2
  | CmdSetExternalAdapterResponse key value ttl =>
      (setExternalAdapterResponse cache_set r key value ttl).2
  | CmdDel key => del cache_delete r key
  | CmdEvalsha sha numberOfKeys args => (evalsha r sha numberOfKeys args).2
  | CmdPexpire => pexpire r
  | CmdQuit => quit r
  end.

Definition run_commands (r : Mock) (cs : list command) : Mock :=
  foldl run_command r cs.

(** The calls that are lock-script evaluations, and the others. *)
Definition is_lock_command (c : command) : bool :=
  match c with CmdEvalsha _ _ _ => true | _ => false end.

(** [CommandChainMock]: the results pushed so far, and the mock the chain
    was made for (shared with it, hence carried along). *)
Record CommandChainMock : Type := mkChain {
  promises : list unit;
  redisMock : Mock;
}.

(** [multi()] *)
Definition multi (r : Mock) : CommandChainMock := mkChain [] r.

(** [chain.set(key, value, 'PX', ttl)]: the argument of [push] is evaluated
    first, so a throwing [set] pushes nothing. *)
Definition chain_set (c : CommandChainMock) (key value : string) (ttl : Z)
  : completion unit * CommandChainMock :=
  match set cache_set (redisMock c) key value ttl with
  | (Return v, r) => (Return tt, mkChain (promises c ++ [v]) r)
  | (Throw message, r) => (Throw message, mkChain (promises c) r)
  end.

(** [chain.setExternalAdapterResponse(key, value, ttl)] *)
Definition chain_setExternalAdapterResponse (c : CommandChainMock)
    (key value : string) (ttl : Z) : completion unit * CommandChainMock :=
  match setExternalAdapterResponse cache_set (redisMock c) key value ttl with
  | (Return v, r) => (Return tt, mkChain (promises c ++ [v]) r)
  | (Throw message, r) => (Throw message, mkChain (promises c) r)
  end.

(** [chain.exec()]: what [Promise.all] resolves with. *)
Definition exec (c : CommandChainMock) : list unit := promises c.

(** A call on the chain. *)
Inductive queued : Type :=
| QueueSet (key value : string) (ttl : Z)
| QueueSetExternalAdapterResponse (key value : string) (ttl : Z).

Definition queued_key (q : queued) : string :=
  match q with
  | QueueSet key _ _ | QueueSetExternalAdapterResponse key _ _ => key
  end.

Definition queue (c : CommandChainMock) (q : queued)
  : completion unit * CommandChainMock :=
  match q with
  | QueueSet key value ttl => chain_set c key value ttl
  | QueueSetExternalAdapterResponse key value ttl =>
      chain_setExternalAdapterResponse c key value ttl
  end.

(** The chained calls [chain.a(...).b(...)...]: an exception ends them. *)
Fixpoint queue_all (c : CommandChainMock) (qs : list queued)
  : completion unit * CommandChainMock :=
  match qs with
  | [] => (Return tt, c)
  | q :: qs' =>
      match queue c q with
      | (Return _, c') => queue_all c' qs'
      | (Throw message, c') => (Throw message, c')
      end
  end.

(** The same calls made on the mock itself. *)
Definition as_command (q : queued) : command :=
  match q with
  | QueueSet key value ttl => CmdSet key value ttl
  | QueueSetExternalAdapterResponse key value ttl =>
      CmdSetExternalAdapterResponse key value ttl
  end.

End Store.

End RedisCommands.

(** *** TestMetrics: the assertions on a parsed snapshot *)

Module TestMetricsAssert.
Import JsString TestMetrics.

(** A backslash followed by a double quote: what [replaceQuotes] looks
    for. *)
Definition escaped_quote : string := String backslash (String dq "").

(** What the test context keeps of a failed assertion: the message of a
    [t.fail], the mismatch of a [t.is], or that of a [t.deepEqual]. *)
Inductive failure : Type :=
| Fail (message : string)
| IsNot
| NotDeepEqual.

(** [t.is(a, b)], by whether [a] and [b] are the same value. *)
Definition t_is (same : bool) (t : list failure) : list failure :=
  if same then t else t ++ [IsNot].

Section Numbers.

Context {collation : LocaleCompare}.

(** JavaScript numbers, with [Object.is] on them and the test [> 0]. *)
Context {number : Type}.
Variable same_value : number -> number -> bool.
Variable greater_than_zero : number -> bool.

(** [assert(t, { name, labels, expectedValue })]: the failures in [t]
    afterwards. *)
Definition assert (m : list (string * number)) (t : list failure)
    (name : string) (labels : option (list (string * string)))
    (expectedValue : number) : list failure :=
  let '(metric, failed) := get m [] name labels in
  t_is (match metric with
        | Some v => same_value v expectedValue
        | None => false
        end)
    (t ++ (Fail <$> failed)).

(** [assertPositiveNumber(t, { name, labels })]; a value of the map is a
    number, so [typeof value === 'number'] is [true]. *)
Definition assertPositiveNumber (m : list (string * number)) (t : list failure)
    (name : string) (labels : option (list (string * string))) : list failure :=
  let '(value, failed) := get m [] name labels in
  match value with
  | Some v => t_is (greater_than_zero v) (t_is true (t ++ (Fail <$> failed)))
  | None => (t ++ (Fail <$> failed)) ++ [Fail (name +:+ " did not record")]
  end.

End Numbers.





End TestMetricsAssert.

(** *** TestAdapter: starting the adapter *)

Module TestAdapterStart.
Import Harness.

(** How often a request was injected in a run. *)
Definition is_inject (e : event) : bool :=
  match e with EvInject => true | _ => false end.

Definition inject_calls (tr : list event) : nat :=
  length (filter (λ e, is_inject e = true) tr).

Section Start.

Context {World : Type}.
Context {FastifyInstance ClockRef MockCache Adapter Value : Type}.

(** The [dependencies] argument is an object used as a map from the names of
    the dependencies to their values; [undefined] when it is left out. A
    property that is there with the value [undefined] is a value that is no
    mock cache. *)
Definition Dependencies : Type := gmap string Value.

(** [start(adapter, dependencies)] of the framework, by the [api] and
    [metricsApi] of what it resolves to. *)
Variable ea_start : Adapter -> option Dependencies
                    -> M World (option FastifyInstance * option FastifyInstance).

(** [new MockCache(adapter.config.settings.CACHE_MAX_ITEMS)], the mock cache as
    a value, and [value instanceof MockCache]. *)
Variable new_MockCache : Adapter -> M World MockCache.
Variable of_MockCache : MockCache -> Value.
Variable as_MockCache : Value -> option MockCache.

(** The test context: [context.clock] and [context.testAdapter]. *)
Record context : Type := mkContext {
  ctx_clock : option ClockRef;
  ctx_testAdapter : option (TestAdapter (FastifyInstance := FastifyInstance)
                              (ClockRef := ClockRef) (MockCache := MockCache));
}.

(** [TestAdapter.start(adapter, context, dependencies)]: the adapter it
    returns and the context afterwards. *)
Definition start (adapter : Adapter) (ctx : context) (dependencies : option Dependencies)
  : M World (TestAdapter * context) :=
  started ← ea_start adapter dependencies;
  match fst started with
  | None => throw "EA was not able to start properly"
  | Some api =>
      let testAdapter :=
        new_TestAdapter as_MockCache api (snd started) (ctx_clock ctx)
          (dependencies ≫= (.!! "cache")) in
      mret (testAdapter, mkContext (ctx_clock ctx) (Some testAdapter))
  end.

(** [TestAdapter.startWithMockedCache(adapter, context, dependencies)]: in
    the object literal the spread of [dependencies] comes after the [cache]
    property and so overrides it. *)
Definition startWithMockedCache (adapter : Adapter) (ctx : context)
    (dependencies : option Dependencies) : M World (TestAdapter * context) :=
  mockCache ← new_MockCache adapter;
  start adapter ctx
    (Some (default ∅ dependencies ∪ {[ "cache" := of_MockCache mockCache ]})).

End Start.

End TestAdapterStart.

(** *** makeStub: reading along a path *)

Module StubPaths.
Import Stub.

(** The value behind what [makeStub] returned. *)
Definition unwrap (x : stub) : value :=
  match x with
  | Plain v => v
  | Proxy _ target => VObject target
  end.

(** Reading property [p] of a value that is not wrapped. *)
Definition plain_read (builtin : value -> prop -> value) (v : value) (p : prop)
  : completion value :=
  match v with
  | VNull => Throw "TypeError: Cannot read properties of null"
  | VUndefined => Throw "TypeError: Cannot read properties of undefined"
  | _ => Return (builtin v p)
  end.

(** [x.p1.p2...] on what [makeStub] returned, with everything written with
    [console.error] on the way. *)
Fixpoint read_path (builtin : value -> prop -> value) (x : stub) (path : list prop)
  : completion stub * list string :=
  match path with
  | [] => (Return x, [])
  | p :: rest =>
      match read builtin x p with
      | (Return y, out) =>
          let '(r, out') := read_path builtin y rest in (r, out ++ out')
      | (Throw message, out) => (Throw message, out)
      end
  end.

(** [v.p1.p2...] on a value that is not wrapped. *)
Fixpoint plain_path (builtin : value -> prop -> value) (v : value) (path : list prop)
  : completion value :=
  match path with
  | [] => Return v
  | p :: rest =>
      match plain_read builtin v p with
      | Return w => plain_path builtin w rest
      | Throw message => Throw message
      end
  end.

(** The name of the stub reached from the stub [name] along [path]. *)
Definition path_name (name : string) (path : list prop) : string :=
  foldl (fun n p => n +:+ "." +:+ String_of_prop p) name path.

End StubPaths.

(** *** MockCache *)

Module MockCache.

Section Cache.

(** The cache of the framework that [MockCache] extends, with its [set],
    and the values kept in it (none of them a promise). *)
Context {LocalCache Value : Type}.
Variable local_set : LocalCache -> string -> Value -> Z -> LocalCache.

(** A mock cache with the promises that [waitForNextSet] has made so far,
    numbered in the order they were made: [settled] holds the value of each
    one that is resolved, and [awaitingPromiseResolve] is the [resolve] of
    the promise it names. *)
Record MockCache : Type := mkMockCache {
  cache : LocalCache;
  awaitingPromiseResolve : option nat;
  settled : gmap nat Value;
  made : nat;
}.

(** [new MockCache(maxItems)], on the [LocalCache] of that size. *)
Definition new_MockCache (empty : LocalCache) : MockCache :=
  mkMockCache empty None ∅ 0.

(** Calling the [resolve] of promise [p]: a promise is settled once. *)
Definition resolve (p : nat) (value : Value) (promises : gmap nat Value)
  : gmap nat Value :=
  match promises !! p with
  | Some _ => promises
  | None => <[p := value]> promises
  end.

(** [waitForNextSet()]: the promise it returns and the cache afterwards. *)
Definition waitForNextSet (c : MockCache) : nat * MockCache :=
  (made c, mkMockCache (cache c) (Some (made c)) (settled c) (S (made c))).

(** [set(key, value, ttl)] *)
Definition set (c : MockCache) (key : string) (value : Value) (ttl : Z) : MockCache :=
  mkMockCache (local_set (cache c) key value ttl)
    (awaitingPromiseResolve c)
    (match awaitingPromiseResolve c with
     | Some p => resolve p value (settled c)
     | None => settled c
     end)
    (made c).

(** A call on the mock cache. *)
Inductive call : Type :=
| CallSet (key : string) (value : Value) (ttl : Z)
| CallWaitForNextSet.

Definition run_call (c : MockCache) (op : call) : MockCache :=
  match op with
  | CallSet key value ttl => set c key value ttl
  | CallWaitForNextSet => (waitForNextSet c).2
  end.

Definition run_calls (c : MockCache) (ops : list call) : MockCache :=
  foldl run_call c ops.

(** The promises named by a mock cache are promises it has made. *)
Definition made_before (c : MockCache) : Prop :=
  (forall p, (made c <= p)%nat -> settled c !! p = None)
  /\ (forall p, awaitingPromiseResolve c = Some p -> (p < made c)%nat).

End Cache.

End MockCache.

(** *** The loops over the properties of an object *)

Module ObjectLoops.
Import JsString.

(** [removeAllListeners()] of the mock web socket: the [listeners] object
    afterwards. The loop visits the event types that the object has on
    entry and deletes only the one it is visiting. *)
Definition removeAllListeners {Listeners : Type} (listeners : gmap string Listeners)
  : gmap string Listeners :=
  foldl (fun ls eventType =>
           if negb (startsWith eventType "server") then delete eventType ls else ls)
    listeners (map_to_list listeners).*1.

(** What [process.env] keeps of an assigned value: its conversion to a
    string, and [None] is [undefined]. *)
Definition env_string (v : option string) : string :=
  default "undefined" v.

(** [setEnvVariables(envVariables)]: [process.env] afterwards. *)
Definition setEnvVariables (envVariables : gmap string (option string))
    (env : gmap string string) : gmap string string :=
  foldl (fun e kv => <[kv.1 := env_string kv.2]> e) env (map_to_list envVariables).

End ObjectLoops.

(** *** assertEqualResponses *)

Module AssertEqualResponses.
Import Stub TestMetricsAssert.

(** [v?.name] for a property [name] that no prototype holds: [undefined]
    on everything but an object that has it. *)
Definition optional_get (v : value) (name : string) : value :=
  match v with
  | VObject properties => get_prop properties (PString name)
  | _ => VUndefined
  end.

(** [a ?? b] *)
Definition nullish (a b : value) : value :=
  match a with
  | VUndefined | VNull => b
  | _ => a
  end.

(** The properties of an object after [delete obj.name]. *)
Definition delete_prop (properties : list (prop * value)) (name : string)
  : list (prop * value) :=
  filter (fun kv => kv.1 ≠ PString name) properties.

Definition providerDataReceivedUnixMs (actual : value) : value :=
  optional_get (optional_get actual "timestamps") "providerDataReceivedUnixMs".

Definition providerDataStreamEstablishedUnixMs (actual : value) : value :=
  optional_get (optional_get actual "timestamps") "providerDataStreamEstablishedUnixMs".

Section DeepEqual.

(** The comparison of [t.deepEqual]. *)
Variable deepEqual : value -> value -> bool.

(** [assertEqualResponses(t, actual, expected)]: how the call completes,
    with [actual] as the call leaves it, and the failures in [t]
    afterwards. *)
Definition assertEqualResponses (t : list failure) (actual expected : value)
  : completion value * list failure :=
  let t1 := t_is (String.eqb (typeof (providerDataReceivedUnixMs actual)) "number") t in
  let t2 :=
    t_is (String.eqb
            (typeof (nullish (providerDataReceivedUnixMs actual)
                       (providerDataStreamEstablishedUnixMs actual)))
            "number") t1 in
  let without_meta :=
    match actual with
    | VObject properties => VObject (delete_prop properties "meta")
    | _ => actual
    end in
  match without_meta with
  | VUndefined | VNull =>
      (Throw "TypeError: Cannot convert undefined or null to object", t2)
  | _ =>
      let without_timestamps :=
        match without_meta with
        | VObject properties => VObject (delete_prop properties "timestamps")
        | _ => without_meta
        end in
      (Return without_timestamps,
       if deepEqual expected without_timestamps then t2 else t2 ++ [NotDeepEqual])
  end.

End DeepEqual.

End AssertEqualResponses.

(** *** A test adapter on the service *)

Module AdapterScenario.
Import Harness VirtualClock Scenario TestAdapterStart.

(** The service answers 200 once a job is completed and 504 before, and
    its cache holds one entry for each completed job. *)
Definition inject (api : unit) (payload : unit) (w : service)
  : service * Promise service Z :=
  (w, fun _ => Some (if 1 <=? Z.of_nat (app w) then 200 else 504)).

Definition cache_size (cache : unit) (w : service) : Z := Z.of_nat (app w).

Definition adapter : TestAdapter (FastifyInstance := unit) (ClockRef := unit)
                       (MockCache := unit) :=
  mkTestAdapter tt None (Some tt) (Some tt).

Definition adapter_without_cache
  : TestAdapter (FastifyInstance := unit) (ClockRef := unit) (MockCache := unit) :=
  mkTestAdapter tt None (Some tt) None.

Definition background_run : outcome service Z :=
  startBackgroundExecuteThenGetResponse (Expected := unit) inject id cache_size 5
    adapter tt None None (mkState started []).

(** A result that is there once a job is completed. *)
Definition completed_jobs : Promise service nat :=
  fun w => if 1 <=? Z.of_nat (app w) then Some (app w) else None.

(** A framework that always starts, mock caches by number, and the caches
    among the values: [None] is a cache that is no mock cache. *)
Definition ea_start (adapter : unit) (dependencies : option (gmap string (option nat)))
  : M unit (option unit * option unit) :=
  fun s => Returned (Some tt, None) s.

Definition new_MockCache (adapter : unit) : M unit nat :=
  fun s => Returned 7%nat s.

Definition plain_cache_dependencies : gmap string (option nat) :=
  {[ "cache" := None ]}.

Definition bare_context
  : context (FastifyInstance := unit) (ClockRef := unit) (MockCache := nat) :=
  mkContext (Some tt) None.

Definition plain_adapter
  : TestAdapter (FastifyInstance := unit) (ClockRef := unit) (MockCache := nat) :=
  mkTestAdapter tt None (Some tt) None.

End AdapterScenario.

(** ** Part II: the properties *)

(** *** Facts about the string primitives *)

Module JsStringFacts.
Import JsString.

Lemma prefix_app (p s : string) : String.prefix p (p +:+ s) = true.
Proof.
  induction p as [|c p IH]; simpl.
  - by destruct s.
  - destruct (ascii_dec c c); [exact IH | done].
Qed.

Lemma includes_prefix (s sub : string) :
  String.prefix sub s = true → includes s sub = true.
Proof. intros Hp. destruct s; cbn [includes]; by rewrite Hp. Qed.

Lemma includes_app_r (l s sub : string) :
  includes s sub = true → includes (l +:+ s) sub = true.
Proof.
  intros Hs. induction l as [|c l IH]; [done|].
  change (String c l +:+ s) with (String c (l +:+ s)).
  cbn [includes]. rewrite IH. apply orb_true_r.
Qed.

Lemma includes_occurrence (l sub r : string) :
  includes (l +:+ sub +:+ r) sub = true.
Proof.
  apply includes_app_r, includes_prefix, prefix_app.
Qed.

(** [String.append] computes on its first argument. *)
Lemma sapp_nil_l (s : string) : "" +:+ s = s.
Proof. reflexivity. Qed.

Lemma sapp_cons (c : ascii) (s t : string) : String c s +:+ t = String c (s +:+ t).
Proof. reflexivity. Qed.

Lemma sapp_nil_r (s : string) : s +:+ "" = s.
Proof. induction s as [|c s IH]; [done|]. by rewrite sapp_cons, IH. Qed.

Lemma sapp_assoc (s t u : string) : (s +:+ t) +:+ u = s +:+ t +:+ u.
Proof. induction s as [|c s IH]; [done|]. by rewrite !sapp_cons, IH. Qed.

Lemma concat_cons (sep x y : string) (ys : list string) :
  String.concat sep (x :: y :: ys) = x +:+ sep +:+ String.concat sep (y :: ys).
Proof. reflexivity. Qed.

Lemma prefix_nil (s : string) : String.prefix "" s = true.
Proof. by destruct s. Qed.

Lemma prefix_cons (a b : ascii) (s t : string) :
  String.prefix (String a s) (String b t) = Ascii.eqb a b && String.prefix s t.
Proof.
  cbn [String.prefix]. destruct (ascii_dec a b) as [->|Hne].
  - by rewrite Ascii.eqb_refl.
  - by apply Ascii.eqb_neq in Hne as ->.
Qed.

Lemma hd_cons_head (c : ascii) (pieces : list string) :
  hd "" (cons_head c pieces) = String c (hd "" pieces).
Proof. by destruct pieces. Qed.

Lemma all_chars_app (p : ascii → bool) (s t : string) :
  all_chars p (s +:+ t) = all_chars p s && all_chars p t.
Proof.
  induction s as [|c s IH]; [done|].
  rewrite sapp_cons. cbn [all_chars]. by rewrite IH, andb_assoc.
Qed.

(** The first piece of a split at spaces is what stands before the first
    space. *)
Lemma split_space_hd (s rest : string) :
  all_chars (λ c, negb (Ascii.eqb c " ")) s = true →
  hd "" (split " " (s +:+ String " " rest)) = s.
Proof.
  unfold split. induction s as [|c s IH]; intros Hs.
  - rewrite sapp_nil_l. cbn [split_aux String.prefix].
    destruct (ascii_dec " " " "); [|done]. by rewrite prefix_nil.
  - cbn [all_chars] in Hs. apply andb_true_iff in Hs as [Hc Hs].
    rewrite sapp_cons. cbn [split_aux String.prefix].
    destruct (ascii_dec " " c) as [<-|_]; [done|].
    by rewrite hd_cons_head, IH.
Qed.

Lemma prefix_quote_comma (c : ascii) (s : string) :
  String.prefix quote_comma (String c s)
  = Ascii.eqb c dq && match s with
                      | String d _ => Ascii.eqb d ","
                      | EmptyString => false
                      end.
Proof.
  unfold quote_comma. rewrite prefix_cons, Ascii.eqb_sym. f_equal.
  destruct s as [|d s]; [done|].
  by rewrite prefix_cons, prefix_nil, andb_true_r, Ascii.eqb_sym.
Qed.

Lemma includes_cons (c : ascii) (s sub : string) :
  includes (String c s) sub = String.prefix sub (String c s) || includes s sub.
Proof. reflexivity. Qed.

(** A piece without the separator, followed by the separator, is the
    first piece of the split. *)
Lemma split_quote_comma_cons (piece rest : string) :
  includes piece quote_comma = false →
  split quote_comma (piece +:+ quote_comma +:+ rest)
  = piece :: split quote_comma rest.
Proof.
  unfold split. induction piece as [|c piece IH]; intros Hpiece.
  - rewrite sapp_nil_l. unfold quote_comma at 2. rewrite !sapp_cons, sapp_nil_l.
    cbn [split_aux]. rewrite prefix_quote_comma. done.
  - rewrite includes_cons in Hpiece.
    apply orb_false_iff in Hpiece as [Hhere Hlater].
    rewrite sapp_cons. cbn [split_aux].
    assert (String.prefix quote_comma (String c (piece +:+ quote_comma +:+ rest)) = false)
      as ->.
    { rewrite prefix_quote_comma in *. destruct piece as [|d piece]; [|done].
      apply andb_false_iff. right. done. }
    by rewrite IH.
Qed.

(** A string without the separator is the only piece of its split. *)
Lemma split_quote_comma_last (piece : string) :
  includes piece quote_comma = false →
  split quote_comma piece = [piece].
Proof.
  unfold split. induction piece as [|c piece IH]; intros Hpiece; [done|].
  rewrite includes_cons in Hpiece.
  apply orb_false_iff in Hpiece as [Hhere Hlater].
  cbn [split_aux]. by rewrite Hhere, IH.
Qed.

Lemma includes_snoc_dq (piece : string) :
  includes piece quote_comma = false →
  includes (piece +:+ String dq "") quote_comma = false.
Proof.
  induction piece as [|c piece IH]; intros Hpiece; [done|].
  rewrite includes_cons in Hpiece.
  apply orb_false_iff in Hpiece as [Hhere Hlater].
  rewrite sapp_cons, includes_cons, IH by done.
  rewrite orb_false_r, prefix_quote_comma in *.
  destruct piece as [|d piece]; [|done].
  apply andb_false_iff. by right.
Qed.

End JsStringFacts.

(** *** RedisMock *)

Module RedisMockFacts.
Import JsString JsStringFacts RedisMock.

Section Store.

Context {LocalCache : Type}.
Variable cache_set : LocalCache -> string -> string -> Z -> LocalCache.

Implicit Types (r : RedisMock (LocalCache := LocalCache)).

(** The three ways of the lock script, by what the table holds itself. *)
Lemma evalsha_cases r sha n R H ttl :
  evalsha r sha n (R, H, ttl)
  = match keys r !! R with
    | Some H' => if decide (H' = H) then (1, r) else (0, r)
    | None =>
        if bool_decide (R ∈ Object_prototype_members) then (0, r)
        else (1, mkRedisMock (store r) (<[R := H]> (keys r)))
    end.
Proof.
  unfold evalsha, read_key. destruct (keys r !! R) as [H'|].
  - repeat case_decide; congruence.
  - by case_bool_decide.
Qed.

Lemma evalsha_held r sha n R H H' ttl :
  keys r !! R = Some H → keys (evalsha r sha n (R, H', ttl)).2 !! R = Some H.
Proof.
  intros Hheld. rewrite evalsha_cases, Hheld. by case_decide.
Qed.

Lemma evalsha_other r sha n R R' H H' ttl :
  keys r !! R = Some H → keys (evalsha r sha n (R', H', ttl)).2 !! R = Some H.
Proof.
  intros Hheld. destruct (decide (R' = R)) as [->|Hne].
  - by apply evalsha_held.
  - rewrite evalsha_cases. destruct (keys r !! R'); [by case_decide|].
    case_bool_decide; simpl; [done|]. by rewrite lookup_insert_ne.
Qed.

Lemma evalsha_all_held r calls R H :
  keys r !! R = Some H → keys (evalsha_all r calls) !! R = Some H.
Proof.
  revert r. induction calls as [|[[sha n] [[R' H'] ttl]] calls IH]; intros r Hheld.
  - done.
  - cbn [evalsha_all foldl]. apply IH.
    by apply (evalsha_other r sha n R R' H H' ttl).
Qed.

(** The protocol on the resource keys that are not the name of an
    inherited member: the lock script acquires an unheld key for the caller
    and returns 1; the holder's own call returns 1 and leaves the table as it
    is; another holder's call returns 0 and leaves the table as it is; and
    no sequence of lock-script calls ever replaces the holder of a key. The
    last three hold of every key. *)
Lemma evalsha_lock_protocol r sha n (R H1 H2 : string) (ttl : Z) :
  H1 ≠ H2 →
  (R ∉ Object_prototype_members → keys r !! R = None →
     evalsha r sha n (R, H1, ttl) = (1, mkRedisMock (store r) (<[R := H1]> (keys r)))
     ∧ keys (evalsha r sha n (R, H1, ttl)).2 !! R = Some H1)
  ∧ (keys r !! R = Some H1 → evalsha r sha n (R, H1, ttl) = (1, r))
  ∧ (keys r !! R = Some H1 → evalsha r sha n (R, H2, ttl) = (0, r))
  ∧ (∀ calls, keys r !! R = Some H1 → keys (evalsha_all r calls) !! R = Some H1).
Proof.
  intros Hne. split; [|split; [|split]].
  - intros Hplain Hfree. rewrite evalsha_cases, Hfree.
    rewrite bool_decide_eq_false_2 by done. split; [done|]. apply lookup_insert_eq.
  - intros Hheld. rewrite evalsha_cases, Hheld. by case_decide.
  - intros Hheld. rewrite evalsha_cases, Hheld. case_decide; [congruence | done].
  - intros calls. apply evalsha_all_held.
Qed.

(** C1, at the resource key [constructor]: no holder has the key, and the
    lock script rejects the caller and records nothing, on every table that
    does not hold the key itself and so on the table of a fresh mock; the
    same call on a key of no inherited name acquires it. *)
Theorem evalsha_inherited_key_rejected (LocalStore : LocalCache) (sha : string)
    (n : Z) (H : string) (ttl : Z) :
  evalsha (mkRedisMock LocalStore ∅) sha n ("constructor", H, ttl)
  = (0, mkRedisMock LocalStore ∅)
  ∧ (∀ r, keys r !! "constructor" = None →
          evalsha r sha n ("constructor", H, ttl) = (0, r))
  ∧ evalsha (mkRedisMock LocalStore ∅) sha n ("lock", H, ttl)
    = (1, mkRedisMock LocalStore {[ "lock" := H ]}).
Proof.
  split; [|split].
  - by rewrite evalsha_cases.
  - intros r Hfree. by rewrite evalsha_cases, Hfree.
  - by rewrite evalsha_cases.
Qed.

(** C2: [set] on a key that contains the error-injection text throws and
    leaves the mock, its store and the store's size as they were. *)
Theorem set_force_error_throws r (before after value : string) (ttl : Z) :
  let key := before +:+ "force-error" +:+ after in
  set cache_set r key value ttl = (Throw "anything", r)
  ∧ store (set cache_set r key value ttl).2 = store r
  ∧ ∀ cache_size : LocalCache → nat,
      cache_size (store (set cache_set r key value ttl).2) = cache_size (store r).
Proof.
  intros key. unfold set, key. rewrite includes_occurrence. done.
Qed.

End Store.

End RedisMockFacts.

(** *** makeStub *)

Module StubFacts.
Import Stub.

Lemma wrapped_iff (v : value) :
  (∃ target, v = VObject target) ↔ v ≠ VNull ∧ typeof v = "object".
Proof.
  split.
  - intros [target ->]. done.
  - intros [Hnull Htype]. destruct v; try done. by eexists.
Qed.

Lemma does_not_exist_not_TypeError (propName what : string) :
  does_not_exist propName ≠ "TypeError: Cannot read properties of " +:+ what.
Proof. intros Heq. cbv in Heq. discriminate Heq. Qed.

(** C9: a read through the wrapper raises the does-not-exist error exactly
    when the wrapped value is a non-null object, the property is absent
    from it, and the property is a string outside the allow-list; a present
    property reads as the wrapper of its value under the extended path; and
    a value that is null or not an object is returned unwrapped. *)
Theorem makeStub_read_strict (builtin : value → prop → value) (name : string)
    (v : value) (p : prop) :
  ((∃ propName, (read builtin (makeStub name v) p).1 = Throw (does_not_exist propName))
   ↔ ∃ target s, v = VObject target ∧ has_prop target p = false
                 ∧ p = PString s ∧ s ∉ allowedUndefinedStubProps)
  ∧ (∀ target, v = VObject target → has_prop target p = true →
       read builtin (makeStub name v) p
       = (Return (makeStub (name +:+ "." +:+ String_of_prop p) (get_prop target p)), []))
  ∧ (v = VNull ∨ typeof v ≠ "object" → makeStub name v = Plain v).
Proof.
  split; [|split].
  - split.
    + intros [propName Hthrow].
      destruct v as [| | | | | |target]; simpl in Hthrow;
        try discriminate Hthrow;
        try (injection Hthrow as Hthrow; symmetry in Hthrow;
             by apply (does_not_exist_not_TypeError _ "null") in Hthrow
             || by apply (does_not_exist_not_TypeError _ "undefined") in Hthrow).
      unfold proxy_get in Hthrow.
      destruct (has_prop target p) eqn:Hhas; [done|].
      destruct p as [s|d]; simpl in Hthrow; [|done].
      case_bool_decide; [done|]. by exists target, s.
    + intros (target & s & -> & Hhas & -> & Hout).
      exists (name +:+ "." +:+ s). simpl. unfold proxy_get. rewrite Hhas. simpl.
      by rewrite bool_decide_eq_false_2.
  - intros target -> Hhas. simpl. unfold proxy_get. by rewrite Hhas.
  - intros [-> | Htype]; [done|]. by destruct v.
Qed.

(** A missing field of a nested object, as in the comment of the source. *)
Example makeStub_obj_foo_baz :
  ∃ foo, read (λ _ _, VUndefined)
           (makeStub "obj" (VObject [(PString "foo", VObject [(PString "bar", VNumber 1)])]))
           (PString "foo") = (Return foo, [])
         ∧ (read (λ _ _, VUndefined) foo (PString "baz")).1
           = Throw "Property 'obj.foo.baz' does not exist".
Proof. eexists. split; reflexivity. Qed.

End StubFacts.

(** *** The fake-clock drivers *)

Module HarnessFacts.
Import Harness.

Section Drivers.

Context {World : Type} `{InstalledClock World}.

Lemma world_advance n (s : state World) :
  world (advance n s) = Nat.iter n nextAsync (world s).
Proof.
  revert s. induction n as [|n IH]; intros s; [done|].
  cbn [advance]. rewrite IH. cbn [world]. by rewrite Nat.iter_succ_r.
Qed.

Lemma clock_advances_app (tr1 tr2 : list event) :
  clock_advances (tr1 ++ tr2) = (clock_advances tr1 + clock_advances tr2)%nat.
Proof. unfold clock_advances. by rewrite filter_app, length_app. Qed.

Lemma clock_advances_advance n (s : state World) :
  clock_advances (trace (advance n s)) = (clock_advances (trace s) + n)%nat.
Proof.
  revert s. induction n as [|n IH]; intros s; cbn [advance]; [lia|].
  rewrite IH. cbn [trace]. rewrite clock_advances_app.
  change (clock_advances [EvNextAsync (now (nextAsync (world s)))]) with 1%nat. lia.
Qed.

(** C7: when the predicate already holds on entry and has no effect of
    its own, [runAllUntil] returns at once: the realm (virtual time and
    pending timers included) and the run so far are as on entry, with no
    clock advancement added. *)
Theorem runAllUntil_holds_at_entry (fuel : nat) (isComplete : M World bool)
    (s : state World) :
  isComplete s = Returned true s →
  runAllUntil fuel isComplete s = Returned tt s
  ∧ world (final_state (runAllUntil fuel isComplete s)) = world s
  ∧ clock_advances (trace (final_state (runAllUntil fuel isComplete s)))
    = clock_advances (trace s).
Proof.
  intros Hholds.
  assert (runAllUntil fuel isComplete s = Returned tt s) as ->; [|done].
  destruct fuel; cbn [runAllUntil]; by rewrite Hholds.
Qed.

(** One round of the loop. *)
Lemma wait_loop_S {T} (is_undefined : T → bool) fuel
    (result : Promise World T) (s : state World) :
  wait_loop is_undefined (S fuel) result s
  = match result (world (advance 1 s)) with
    | Some v =>
        if is_undefined v then wait_loop is_undefined fuel result (advance 1 s)
        else Returned v (advance 1 s)
    | None => wait_loop is_undefined fuel result (advance 1 s)
    end.
Proof. reflexivity. Qed.

Lemma wait_loop_returned {T} (is_undefined : T → bool) fuel
    (result : Promise World T) (s s' : state World) (v : T) :
  wait_loop is_undefined fuel result s = Returned v s' → is_undefined v = false.
Proof.
  revert s. induction fuel as [|fuel IH]; intros s; [done|].
  rewrite wait_loop_S.
  destruct (result _) as [r|]; [|by apply IH].
  destruct (is_undefined r) eqn:Hr; [by apply IH|]. by intros [= <- _].
Qed.

Lemma wait_loop_spins {T} (is_undefined : T → bool) fuel
    (result : Promise World T) (s : state World) :
  (∀ n, match result (Nat.iter n nextAsync (world s)) with
        | Some v => is_undefined v = true
        | None => True
        end) →
  wait_loop is_undefined fuel result s = Hung (advance fuel s).
Proof.
  revert s. induction fuel as [|fuel IH]; intros s Hundef; [done|].
  rewrite wait_loop_S.
  assert (wait_loop is_undefined fuel result (advance 1 s)
          = Hung (advance (S fuel) s)) as Hrec.
  { apply IH. intros n. specialize (Hundef (S n)).
    cbn [advance world]. by rewrite <-Nat.iter_succ_r. }
  specialize (Hundef 1%nat). cbn in Hundef. cbn [advance world].
  cbn [advance] in Hrec.
  destruct (result (nextAsync (world s))) as [r|]; [by rewrite Hundef | done].
Qed.

(** C10: what [waitUntilResolved] returns is never [undefined]; and when
    the operation, once started, is unsettled or settled with [undefined]
    at every later step of the clock, the call does not return on any fuel:
    it is still looping after as many clock advancements as there was
    fuel. *)
Theorem waitUntilResolved_undefined_never_returns {T} (is_undefined : T → bool)
    (fuel : nat) (fn : M World (Promise World T)) (s : state World) :
  (∀ v s', waitUntilResolved is_undefined fuel fn s = Returned v s' →
           is_undefined v = false)
  ∧ (∀ result s',
       fn s = Returned result s' →
       (∀ n, match result (Nat.iter n nextAsync (world s')) with
             | Some v => is_undefined v = true
             | None => True
             end) →
       waitUntilResolved is_undefined fuel fn s = Hung (advance fuel s')
       ∧ clock_advances (trace (advance fuel s'))
         = (clock_advances (trace s') + fuel)%nat).
Proof.
  split.
  - intros v s'. unfold waitUntilResolved.
    destruct (fn s) as [result s1|message s1|s1]; [| |done];
      apply wait_loop_returned.
  - intros result s' Hfn Hundef. unfold waitUntilResolved. rewrite Hfn.
    split; [by apply wait_loop_spins | apply clock_advances_advance].
Qed.

Lemma call_stepValidation_pure (sv : Z → World → bool) (i : Z) (s : state World) :
  call_stepValidation (λ i, pure_check (sv i)) i s
  = Returned (sv i (world s))
      (mkState (world s) (trace s ++ [EvStepValidation i (sv i (world s))])).
Proof. reflexivity. Qed.

Lemma runAllUntil_gate (fuel : nat) (sv : Z → World → bool) (i : Z)
    (s s' : state World) :
  runAllUntil fuel (call_stepValidation (λ i, pure_check (sv i)) i) s = Returned tt s' →
  ∃ nexts, trace s' = trace s ++ gate_trace i nexts
           ∧ (length nexts ≤ fuel)%nat
           ∧ sv i (world s') = true.
Proof.
  revert s. induction fuel as [|fuel IH]; intros s; cbn [runAllUntil];
    rewrite call_stepValidation_pure;
    destruct (sv i (world s)) eqn:Hsv; try done.
  - intros [= <-]. exists []. cbn [world trace gate_trace length]. done.
  - intros [= <-]. exists []. cbn [world trace gate_trace length].
    split; [done|]. split; [lia | done].
  - unfold mbind, M_bind, bind, clock_nextAsync. cbn [world trace].
    intros Hrun. apply IH in Hrun as (nexts & Htrace & Hlen & Hholds).
    exists (now (nextAsync (world s)) :: nexts).
    cbn [trace] in Htrace. rewrite Htrace. cbn [gate_trace length].
    rewrite <-!app_assoc. split; [done|]. split; [lia | done].
Qed.

Lemma periodic_loop_trace (fuel : nat) (interval : Z) (sv : Z → World → bool)
    (i : Z) (remaining : nat) (s s' : state World) :
  periodic_loop fuel interval (λ i, pure_check (sv i)) i remaining s = Returned tt s' →
  ∃ rounds, length rounds = remaining
            ∧ trace s' = trace s ++ periodic_trace interval i rounds.
Proof.
  revert i s. induction remaining as [|remaining IH]; intros i s; cbn [periodic_loop].
  - intros [= <-]. exists []. cbn [periodic_trace]. by rewrite app_nil_r.
  - unfold mbind, M_bind, bind, clock_tickAsync.
    destruct (runAllUntil fuel _ _) as [[] s1|message s1|s1] eqn:Hgate; try done.
    apply runAllUntil_gate in Hgate as (nexts & Htrace & _ & _).
    intros Hrest. apply IH in Hrest as (rounds & Hlen & Hrounds).
    exists (nexts :: rounds). cbn [length periodic_trace]. split; [by rewrite Hlen|].
    rewrite Hrounds, Htrace. cbn [trace]. by rewrite <-!app_assoc.
Qed.

Lemma stepValidation_calls_app (tr1 tr2 : list event) :
  stepValidation_calls (tr1 ++ tr2)
  = (stepValidation_calls tr1 + stepValidation_calls tr2)%nat.
Proof. unfold stepValidation_calls. by rewrite filter_app, length_app. Qed.

Lemma stepValidation_calls_gate (i : Z) (nexts : list Z) :
  stepValidation_calls (gate_trace i nexts) = S (length nexts).
Proof.
  induction nexts as [|t nexts IH]; [done|].
  cbn [gate_trace length]. rewrite <-IH. reflexivity.
Qed.

Lemma stepValidation_calls_periodic (interval i : Z) (rounds : list (list Z)) :
  stepValidation_calls (periodic_trace interval i rounds)
  = (length rounds + sum_list (length <$> rounds))%nat.
Proof.
  revert i. induction rounds as [|nexts rounds IH]; intros i; [done|].
  cbn [periodic_trace length fmap list_fmap sum_list sum_list_with].
  change (EvTickAsync interval :: ?l) with ([EvTickAsync interval] ++ l).
  rewrite !stepValidation_calls_app, stepValidation_calls_gate, IH.
  change (stepValidation_calls [EvTickAsync interval]) with 0%nat.
  unfold id. lia.
Qed.

(** The gate returns as soon as its predicate holds within the fuel. *)
Lemma runAllUntil_gate_returns (fuel : nat) (sv : Z → World → bool) (i : Z)
    (s : state World) :
  (∃ k, (k ≤ fuel)%nat ∧ sv i (Nat.iter k nextAsync (world s)) = true) →
  ∃ s', runAllUntil fuel (call_stepValidation (λ i, pure_check (sv i)) i) s
        = Returned tt s'.
Proof.
  revert s. induction fuel as [|fuel IH]; intros s (k & Hk & Hholds);
    cbn [runAllUntil]; rewrite call_stepValidation_pure;
    destruct (sv i (world s)) eqn:Hsv; try by eexists.
  - assert (k = 0%nat) as -> by lia. cbn in Hholds. congruence.
  - destruct k as [|k]; [cbn in Hholds; congruence|].
    unfold mbind, M_bind, bind, clock_nextAsync. cbn [world trace].
    apply IH. exists k. split; [lia|]. cbn [world].
    by rewrite <-Nat.iter_succ_r.
Qed.

(** The periodic driver returns when every step validation comes to hold
    within the fuel, from wherever the realm stands. *)
Lemma periodic_loop_returns (fuel : nat) (interval : Z) (sv : Z → World → bool)
    (i : Z) (remaining : nat) (s : state World) :
  (∀ j w, ∃ k, (k ≤ fuel)%nat ∧ sv j (Nat.iter k nextAsync w) = true) →
  ∃ s', periodic_loop fuel interval (λ i, pure_check (sv i)) i remaining s
        = Returned tt s'.
Proof.
  intros Hlive. revert i s.
  induction remaining as [|remaining IH]; intros i s; cbn [periodic_loop].
  - by eexists.
  - unfold mbind, M_bind, bind, clock_tickAsync.
    destruct (runAllUntil_gate_returns fuel sv i
                (mkState (tickAsync interval (world s))
                   (trace s ++ [EvTickAsync interval]))) as [s1 ->].
    { apply Hlive. }
    apply IH.
Qed.

(** The gate either returns, after a failed check before each advancement
    and the check that holds, or is cut when the fuel is spent, after failed
    checks only. It never throws. *)
Lemma runAllUntil_gate_outcome (fuel : nat) (sv : Z → World → bool) (i : Z)
    (s : state World) :
  (∃ s' nexts,
     runAllUntil fuel (call_stepValidation (λ i, pure_check (sv i)) i) s = Returned tt s'
     ∧ trace s' = trace s ++ gate_trace i nexts
     ∧ (length nexts ≤ fuel)%nat)
  ∨ (∃ s' nexts,
       runAllUntil fuel (call_stepValidation (λ i, pure_check (sv i)) i) s = Hung s'
       ∧ trace s' = trace s ++ stalled_gate_trace i nexts
       ∧ length nexts = fuel).
Proof.
  revert s. induction fuel as [|fuel IH]; intros s; cbn [runAllUntil];
    rewrite call_stepValidation_pure;
    destruct (sv i (world s)) eqn:Hsv.
  - left. eexists _, []. cbn [trace gate_trace length]. done.
  - right. eexists _, []. cbn [trace stalled_gate_trace length]. done.
  - left. eexists _, []. cbn [trace gate_trace length]. split; [done|].
    split; [done | lia].
  - unfold mbind, M_bind, bind, clock_nextAsync. cbn [world trace].
    destruct (IH (mkState (nextAsync (world s))
                    ((trace s ++ [EvStepValidation i false])
                       ++ [EvNextAsync (now (nextAsync (world s)))])))
      as [(s' & nexts & -> & Htrace & Hlen) | (s' & nexts & -> & Htrace & Hlen)];
      [left | right]; exists s', (now (nextAsync (world s)) :: nexts);
      cbn [trace] in Htrace; rewrite Htrace;
      cbn [gate_trace stalled_gate_trace length]; rewrite <-!app_assoc;
      (split; [done|]); (split; [done | lia]).
Qed.

Lemma periodic_loop_outcome (fuel : nat) (interval : Z) (sv : Z → World → bool)
    (i : Z) (remaining : nat) (s : state World) :
  ∃ (rounds : list (list Z)) (tail : list event),
    trace (final_state
             (periodic_loop fuel interval (λ i, pure_check (sv i)) i remaining s))
    = trace s ++ periodic_trace interval i rounds ++ tail
    ∧ ((periodic_loop fuel interval (λ i, pure_check (sv i)) i remaining s
        = Returned tt
            (final_state
               (periodic_loop fuel interval (λ i, pure_check (sv i)) i remaining s))
        ∧ length rounds = remaining ∧ tail = [])
       ∨ (periodic_loop fuel interval (λ i, pure_check (sv i)) i remaining s
          = Hung
              (final_state
                 (periodic_loop fuel interval (λ i, pure_check (sv i)) i remaining s))
          ∧ (length rounds < remaining)%nat
          ∧ ∃ nexts, length nexts = fuel
                     ∧ tail = EvTickAsync interval
                              :: stalled_gate_trace (i + Z.of_nat (length rounds)) nexts)).
Proof.
  revert i s. induction remaining as [|remaining IH]; intros i s; cbn [periodic_loop].
  - exists [], []. cbn [periodic_trace final_state]. rewrite !app_nil_r.
    split; [done|]. by left.
  - unfold mbind, M_bind, bind, clock_tickAsync.
    destruct (runAllUntil_gate_outcome fuel sv i
                (mkState (tickAsync interval (world s))
                   (trace s ++ [EvTickAsync interval])))
      as [(s1 & nexts & -> & Htrace & _) | (s1 & nexts & -> & Htrace & Hlen)].
    + destruct (IH (i + 1) s1) as (rounds & tail & Hrun & Hcases).
      exists (nexts :: rounds), tail. split.
      * rewrite Hrun, Htrace. cbn [trace periodic_trace app].
        rewrite <-!app_assoc. cbn [app]. done.
      * destruct Hcases as [(Hret & Hrounds & ->) | (Hhung & Hrounds & nexts' & Hlen & ->)].
        -- left. cbn [length]. by rewrite Hrounds.
        -- right. split; [done|]. cbn [length]. split; [lia|].
           exists nexts'. split; [done|]. do 2 f_equal. lia.
    + exists [], (EvTickAsync interval :: stalled_gate_trace i nexts).
      cbn [final_state periodic_trace length app]. split.
      * rewrite Htrace. cbn [trace]. by rewrite <-app_assoc.
      * right. split; [done|]. split; [lia|]. exists nexts. split; [done|].
        do 2 f_equal. lia.
Qed.

(** C5, as the code has it, for a step validation that only reads the
    realm and for every run, returned or cut when the fuel is spent: the run
    is made of whole iterations, each one tick of the interval followed by
    the checks of that iteration, a failed one before each [nextAsync] and
    the one that holds last, and the step validation is called once for each
    such iteration and once more for each advancement of its gate. The run
    returns with all the iterations made, unless an iteration is cut: then
    its tick is followed by failed checks only, one more than the fuel
    allows advancements. No check of an iteration comes before its tick or
    after the tick of the next. *)
Theorem runPeriodic_iterations (fuel : nat) (interval times : Z)
    (stepValidation : Z → World → bool) (s : state World) :
  ∃ (rounds : list (list Z)) (tail : list event),
    trace (final_state
             (runPeriodicAsyncBackgroundExecution fuel interval times
                (λ i, pure_check (stepValidation i)) s))
    = trace s ++ periodic_trace interval 0 rounds ++ tail
    ∧ stepValidation_calls (periodic_trace interval 0 rounds)
      = (length rounds + sum_list (length <$> rounds))%nat
    ∧ ((runPeriodicAsyncBackgroundExecution fuel interval times
          (λ i, pure_check (stepValidation i)) s
        = Returned tt
            (final_state
               (runPeriodicAsyncBackgroundExecution fuel interval times
                  (λ i, pure_check (stepValidation i)) s))
        ∧ length rounds = Z.to_nat times ∧ tail = [])
       ∨ (runPeriodicAsyncBackgroundExecution fuel interval times
            (λ i, pure_check (stepValidation i)) s
          = Hung
              (final_state
                 (runPeriodicAsyncBackgroundExecution fuel interval times
                    (λ i, pure_check (stepValidation i)) s))
          ∧ (length rounds < Z.to_nat times)%nat
          ∧ ∃ nexts, length nexts = fuel
                     ∧ tail = EvTickAsync interval
                              :: stalled_gate_trace (Z.of_nat (length rounds)) nexts)).
Proof.
  unfold runPeriodicAsyncBackgroundExecution.
  destruct (periodic_loop_outcome fuel interval stepValidation 0 (Z.to_nat times) s)
    as (rounds & tail & Htrace & Hcases).
  exists rounds, tail. split; [done|]. split; [apply stepValidation_calls_periodic|].
  exact Hcases.
Qed.

End Drivers.

Section Adapter.

Context {World : Type} `{InstalledClock World}.
Context {collation : TestMetrics.LocaleCompare}.
Context {FastifyInstance ClockRef MockCache Payload Response Expected number : Type}.
Variable inject : FastifyInstance → Payload → World → World * Promise World Response.
Variable statusCode : Response → Z.
Variable cache_size : MockCache → World → Z.
Variable register_metrics : World → string.
Variable Number : option string → number.

Implicit Types (a : TestAdapter (FastifyInstance := FastifyInstance)
                      (ClockRef := ClockRef) (MockCache := MockCache)).

(** C8: without its dependency each guarded operation throws at once, with
    the realm and the run as they were: no request issued, no clock
    advanced. [startBackgroundExecuteThenGetResponse] needs the clock and
    the mock cache, [waitForCache] the clock, [getMetrics] the metrics
    endpoint. *)
Theorem misconfigured_adapter_throws (fuel : nat) a (requestData : Payload)
    (expectedResponse : option Expected) (expectedCacheSize expectedSize : option Z)
    (s : state World) :
  (clock a = None ∨ mockCache a = None →
     ∃ message,
       startBackgroundExecuteThenGetResponse inject statusCode cache_size fuel a
         requestData expectedResponse expectedCacheSize s = Thrown message s)
  ∧ (clock a = None →
       ∃ message, waitForCache cache_size fuel a expectedSize s = Thrown message s)
  ∧ (metricsApi a = None →
       ∃ message, getMetrics register_metrics Number a s = Thrown message s).
Proof.
  split; [|split].
  - unfold startBackgroundExecuteThenGetResponse.
    intros [Hclock | Hcache].
    + rewrite Hclock. by eexists.
    + rewrite Hcache. destruct (clock a); by eexists.
  - unfold waitForCache. intros ->. by eexists.
  - unfold getMetrics. intros ->. by eexists.
Qed.

(** An adapter started with a cache that is no [MockCache] has no mock
    cache, and the background scenario throws on it. *)
Lemma plain_cache_adapter_throws {Cache : Type} (as_MockCache : Cache → option MockCache)
    (api : FastifyInstance) (metricsApi : option FastifyInstance)
    (clock : option ClockRef) (cache : Cache) (fuel : nat) (requestData : Payload)
    (expectedResponse : option Expected) (expectedCacheSize : option Z)
    (s : state World) :
  as_MockCache cache = None →
  ∃ message,
    startBackgroundExecuteThenGetResponse inject statusCode cache_size fuel
      (new_TestAdapter as_MockCache api metricsApi clock (Some cache))
      requestData expectedResponse expectedCacheSize s = Thrown message s.
Proof.
  intros Hplain. unfold startBackgroundExecuteThenGetResponse, new_TestAdapter.
  cbn [Harness.clock Harness.mockCache mbind option_bind]. rewrite Hplain.
  destruct clock; by eexists.
Qed.

End Adapter.

End HarnessFacts.

(** *** The bounded advancer on the virtual clock *)

Module VirtualClockFacts.
Import Harness VirtualClock.

Section Simulation.

Context {App Callback : Type}.
Variable fire : Callback → Z → App → App * list (Z * Callback).
Variable loopLimit : nat.

Abbreviation clock := (clock (App := App) (Callback := Callback)).
Abbreviation timer := (timer (Callback := Callback)).

#[local] Instance simulated_clock : InstalledClock clock :=
  clock_InstalledClock fire loopLimit.

Lemma pick_Some (ts : list timer) t rest :
  pick ts = Some (t, rest) →
  ts ≡ₚ t :: rest ∧ ∀ u, u ∈ ts → callAt t ≤ callAt u.
Proof.
  revert t rest. induction ts as [|t0 ts IH]; intros t rest; cbn [pick]; [done|].
  destruct (pick ts) as [[u rest']|] eqn:Hpick.
  - destruct (IH u rest' eq_refl) as [Hperm Hmin].
    destruct (callAt u <? callAt t0) eqn:Hlt; intros [= <- <-].
    + apply Z.ltb_lt in Hlt. split.
      * rewrite Hperm. apply Permutation_swap.
      * intros v [->|Hv]%elem_of_cons; [lia | by apply Hmin].
    + apply Z.ltb_ge in Hlt. split; [done|].
      intros v [->|Hv]%elem_of_cons; [lia|]. specialize (Hmin v Hv). lia.
  - intros [= <- <-]. destruct ts as [|t1 ts]; [|cbn [pick] in Hpick].
    + split; [done|]. intros v [->|Hv]%elem_of_cons; [lia | by inversion Hv].
    + destruct (pick ts) as [[u rest']|]; [|done].
      by destruct (callAt u <? callAt t1).
Qed.

Lemma pick_None (ts : list timer) : pick ts = None → ts = [].
Proof.
  destruct ts as [|t ts]; [done|]. cbn [pick].
  destruct (pick ts) as [[u rest]|]; [|done].
  by destruct (callAt u <? callAt t).
Qed.

Lemma setTimeout_all (c : clock) (registered : list (Z * Callback)) :
  let c' := foldl (λ c' '(delay, cb), setTimeout c' delay (Run cb)) c registered in
  virtual_time c' = virtual_time c ∧ ∀ u, u ∈ timers c → u ∈ timers c'.
Proof.
  revert c. induction registered as [|[delay cb] registered IH]; intros c; [done|].
  cbn [foldl]. destruct (IH (setTimeout c delay (Run cb))) as [Hnow Hkeep].
  split; [by rewrite Hnow|].
  intros u Hu. apply Hkeep. cbn [setTimeout timers].
  apply elem_of_app. by left.
Qed.

Lemma fire_next_bounded (target : Z) (c : clock) :
  virtual_time c < target → sentinel_pending target c →
  virtual_time (fire_next fire c) ≤ target
  ∧ sentinel_pending target (fire_next fire c).
Proof.
  intros Hshort Hpending. destruct (Hpending Hshort) as (t0 & Ht0 & Hat).
  unfold sentinel_pending, fire_next. destruct (pick (timers c)) as [[t rest]|] eqn:Hpick.
  - apply pick_Some in Hpick as [Hperm Hmin].
    assert (callAt t ≤ target) as Hle by (rewrite <-Hat; by apply Hmin).
    assert (callAt t < target → t0 ∈ rest) as Hrest.
    { intros Hlt. rewrite Hperm in Ht0.
      apply elem_of_cons in Ht0 as [->|Ht0]; [lia | done]. }
    destruct (act t) as [|callback].
    + split; [done|]. intros Hlt. exists t0. split; [by apply Hrest | done].
    + destruct (fire callback (callAt t) (app c)) as [app' registered].
      destruct (setTimeout_all (mkClock (callAt t) rest app') registered)
        as [Hnow Hkeep].
      cbn zeta in Hnow, Hkeep. rewrite Hnow. split; [done|].
      intros Hlt. exists t0. split; [|done]. apply Hkeep. by apply Hrest.
  - apply pick_None in Hpick. rewrite Hpick in Ht0. by inversion Ht0.
Qed.

(** The loop of [runAllUntilTime] from a state in which the sentinel is
    pending. *)
Lemma runAllUntilTime_loop (fuel : nat) (target : Z) (s : state clock) :
  sentinel_pending target (world s) →
  let o := runAllUntil fuel (t ← Harness.clock_now; mret (negb (t <? target))) s in
  ∃ nexts,
    trace (final_state o) = trace s ++ (EvNextAsync <$> nexts)
    ∧ Forall (λ t, t ≤ target) nexts
    ∧ virtual_time (world (final_state o))
      ≤ target `max` virtual_time (world s)
    ∧ match o with
      | Returned _ s' => target ≤ virtual_time (world s')
      | Hung s' => virtual_time (world s') < target ∧ length nexts = fuel
      | Thrown _ _ => False
      end.
Proof.
  cbn zeta. set (check := t ← Harness.clock_now; mret (negb (t <? target))).
  assert (∀ s, check s = Returned (negb (virtual_time (world s) <? target)) s)
    as Hcheck by done.
  clearbody check. revert s.
  induction fuel as [|fuel IH]; intros s Hpending; cbn [runAllUntil];
    rewrite Hcheck;
    destruct (virtual_time (world s) <? target) eqn:Hshort; cbn [negb];
    try (apply Z.ltb_ge in Hshort; exists []; cbn [final_state fmap list_fmap];
         rewrite app_nil_r; repeat split; [done | lia | done]).
  - apply Z.ltb_lt in Hshort. exists []. cbn [final_state fmap list_fmap length].
    rewrite app_nil_r. repeat split; [done | lia | done].
  - apply Z.ltb_lt in Hshort.
    destruct (fire_next_bounded target (world s) Hshort Hpending)
      as [Hle Hpending'].
    unfold mbind, M_bind, bind, Harness.clock_nextAsync.
    cbn [world trace nextAsync now simulated_clock clock_InstalledClock].
    set (s1 := mkState (fire_next fire (world s))
                 (trace s ++ [EvNextAsync (virtual_time (fire_next fire (world s)))])).
    destruct (IH s1 Hpending') as (nexts & Htrace & Hall & Hnow & Hend).
    exists (virtual_time (fire_next fire (world s)) :: nexts).
    split; [|split; [|split]].
    + rewrite Htrace. cbn [s1 trace fmap list_fmap]. by rewrite <-app_assoc.
    + by constructor.
    + cbn [s1 world] in Hnow. lia.
    + destruct (runAllUntil fuel check s1); [done|done|].
      destruct Hend as [Hlt Hlen]. cbn [length]. split; [done | by rewrite Hlen].
Qed.

Lemma runAllUntilTime_unfold (fuel : nat) (time : Z) (s : state clock) :
  runAllUntilTime fuel time s
  = runAllUntil fuel
      (t ← Harness.clock_now; mret (negb (t <? now (world s) + time)))
      (mkState (sleep time (world s)) (trace s ++ [EvSleep time])).
Proof. reflexivity. Qed.

(** C6: during [runAllUntilTime(clock, time)] started at [clock.now = t0]
    every advancement of the clock lands at or before [t0 + time]; for a
    duration that is not negative the sentinel that [sleep] registers stands
    at exactly [t0 + time]; the call returns only with the clock at or after
    [t0 + time] (exactly there when [time] is not negative), and while it has
    not returned the clock is short of [t0 + time]. *)
Theorem runAllUntilTime_never_past_target (fuel : nat) (time : Z) (c : clock) :
  let o := runAllUntilTime fuel time (mkState c []) in
  ∃ nexts,
    trace (final_state o) = EvSleep time :: (EvNextAsync <$> nexts)
    ∧ Forall (λ t, t ≤ virtual_time c + time) nexts
    ∧ (0 ≤ time →
       mkTimer (virtual_time c + time) Resolve ∈ timers (register_sleep time c))
    ∧ match o with
      | Returned _ s' =>
          virtual_time c + time ≤ virtual_time (world s')
          ∧ (0 ≤ time →
             virtual_time (world s') = virtual_time c + time)
      | Hung s' =>
          virtual_time (world s') < virtual_time c + time
          ∧ length nexts = fuel
      | Thrown _ _ => False
      end.
Proof.
  cbn zeta. rewrite runAllUntilTime_unfold.
  cbn [world trace now sleep simulated_clock clock_InstalledClock app].
  change ([] ++ [EvSleep time]) with [EvSleep time].
  set (target := virtual_time c + time).
  set (s1 := mkState (register_sleep time c) [EvSleep time]).
  assert (sentinel_pending target (world s1)) as Hpending.
  { intros Hshort. cbn [s1 world register_sleep setTimeout virtual_time] in *.
    exists (mkTimer (virtual_time c + 0 `max` time) Resolve).
    split; [set_solver|]. cbn [callAt]. unfold target in *. lia. }
  destruct (runAllUntilTime_loop fuel target s1 Hpending)
    as (nexts & Htrace & Hall & Hnow & Hend).
  cbn zeta in Htrace, Hnow, Hend. exists nexts.
  split; [exact Htrace|]. split; [exact Hall|]. split.
  - intros Htime. cbn [register_sleep setTimeout timers].
    replace (0 `max` time) with time by lia. set_solver.
  - cbn [s1 world register_sleep setTimeout virtual_time] in Hnow.
    destruct (runAllUntil fuel _ s1); [|done|done].
    split; [done|]. intros Htime. cbn [final_state] in Hnow. unfold target in *. lia.
Qed.

End Simulation.

End VirtualClockFacts.

(** *** The drivers on the service with the periodic job *)

Module ScenarioFacts.
Import Harness HarnessFacts VirtualClock Scenario.

(** The run of three iterations: the secondary timer of the first job is
    still pending after the first tick, so the first gate advances once. *)
Example three_iterations_trace :
  three_iterations
  = Returned tt
      (mkState (mkClock 3010 [mkTimer 4000 (Run Periodic)] 3%nat)
         [EvTickAsync 1000; EvStepValidation 0 false; EvNextAsync 1010;
          EvStepValidation 0 true;
          EvTickAsync 1000; EvStepValidation 1 true;
          EvTickAsync 1000; EvStepValidation 2 true]).
Proof. vm_compute. reflexivity. Qed.

(** C5, counterexample: with [times = 3] the step validation is called 4
    times, not 3. *)
Lemma three_iterations_four_calls :
  stepValidation_calls (trace (final_state three_iterations)) ≠ 3%nat.
Proof. vm_compute. discriminate. Qed.

Lemma runAllUntil_holds_at_entry_witness :
  runAllUntil 5 (pure_check (stepValidation (-1))) (mkState started [])
  = Returned tt (mkState started [])
  ∧ world (final_state
             (runAllUntil 5 (pure_check (stepValidation (-1))) (mkState started [])))
    = started
  ∧ clock_advances
      (trace (final_state
                (runAllUntil 5 (pure_check (stepValidation (-1))) (mkState started []))))
    = clock_advances [].
Proof.
  apply (runAllUntil_holds_at_entry 5 (pure_check (stepValidation (-1)))
           (mkState started [])).
  reflexivity.
Defined.

(** An operation that settles with [undefined] at once: the bridge is still
    looping after seven advancements of the clock. *)
Example waitUntilResolved_undefined_hangs :
  waitUntilResolved
    (λ v, match v with Stub.VUndefined => true | _ => false end) 7
    (λ s, Returned (λ _, Some Stub.VUndefined) s) (mkState started [])
  = Hung (advance 7 (mkState started [])).
Proof.
  unfold waitUntilResolved. apply wait_loop_spins. intros n. reflexivity.
Qed.

(** The bounded advancer on the service: 1500 ms from the start. *)
Example runAllUntilTime_1500 :
  runAllUntilTime 5 1500 (mkState started [])
  = Returned tt
      (mkState (mkClock 1500 [mkTimer 2000 (Run Periodic)] 1%nat)
         [EvSleep 1500; EvNextAsync 1000; EvNextAsync 1010; EvNextAsync 1500]).
Proof. vm_compute. reflexivity. Qed.

End ScenarioFacts.

(** *** TestMetrics *)

Module TestMetricsFacts.
Import JsString JsStringFacts TestMetrics.

(** **** The match of the regular expression *)

Lemma span_name_brace (name rest : string) :
  all_chars is_name_char name = true →
  span_name (name +:+ String "{" rest) = (name, String "{" rest).
Proof.
  induction name as [|c name IH]; intros Hname; [done|].
  cbn [all_chars] in Hname. apply andb_true_iff in Hname as [Hc Hname].
  rewrite sapp_cons. cbn [span_name]. by rewrite Hc, IH.
Qed.

Lemma unsnoc_snoc (s : string) (c : ascii) :
  unsnoc (s +:+ String c "") = Some (s, c).
Proof.
  induction s as [|d s IH]; [done|].
  rewrite sapp_cons. cbn [unsnoc]. by rewrite IH.
Qed.

Lemma match_nameAndLabels_sample (name rawLabels : string) :
  metric_name name = true →
  all_chars (λ c, negb (is_line_terminator c)) rawLabels = true →
  match_nameAndLabels (name +:+ "{" +:+ rawLabels +:+ "}") = Some (name, rawLabels).
Proof.
  intros [Hnonempty Hname]%andb_true_iff Hraw. unfold match_nameAndLabels.
  change ("{" +:+ rawLabels +:+ "}") with (String "{" (rawLabels +:+ "}")).
  rewrite span_name_brace by done.
  destruct name as [|c name]; [done|].
  change (Ascii.eqb "{" "{") with true. cbn iota.
  change "}" with (String "}" ""). rewrite unsnoc_snoc.
  change (Ascii.eqb "}" "}") with true. by rewrite Hraw.
Qed.

(** **** Unescaping the quotes *)

Lemma replaceQuotes_cons (c : ascii) (s : string) :
  Ascii.eqb c backslash = false →
  replaceQuotes (String c s) = String c (replaceQuotes s).
Proof.
  intros Hc. cbn [replaceQuotes]. destruct s as [|d s]; [done|]. by rewrite Hc.
Qed.

Lemma replaceQuotes_cons2 (c d : ascii) (s : string) :
  replaceQuotes (String c (String d s))
  = if Ascii.eqb c backslash && Ascii.eqb d dq
    then String "'" (replaceQuotes s)
    else String c (replaceQuotes (String d s)).
Proof. reflexivity. Qed.

Lemma replaceQuotes_app_both (s t : string) :
  (ends_with backslash s = false →
   replaceQuotes (s +:+ t) = replaceQuotes s +:+ replaceQuotes t)
  ∧ (∀ c, ends_with backslash (String c s) = false →
          replaceQuotes (String c s +:+ t)
          = replaceQuotes (String c s) +:+ replaceQuotes t).
Proof.
  induction s as [|d s [IHs IHcons]].
  - split; [done|]. intros c Hc. cbn [ends_with] in Hc.
    rewrite sapp_cons, sapp_nil_l, !replaceQuotes_cons by done. done.
  - split; [apply IHcons|]. intros c Hc.
    change (ends_with backslash (String c (String d s)))
      with (ends_with backslash (String d s)) in Hc.
    rewrite !sapp_cons, !replaceQuotes_cons2.
    destruct (Ascii.eqb c backslash && Ascii.eqb d dq) eqn:Hesc.
    + rewrite sapp_cons. f_equal. apply IHs.
      destruct s as [|e s]; [done|]. exact Hc.
    + rewrite sapp_cons, <-sapp_cons. f_equal. by apply IHcons.
Qed.

Lemma replaceQuotes_app (s t : string) :
  ends_with backslash s = false →
  replaceQuotes (s +:+ t) = replaceQuotes s +:+ replaceQuotes t.
Proof. apply replaceQuotes_app_both. Qed.

Lemma replaceQuotes_quote_comma (s : string) :
  replaceQuotes (quote_comma +:+ s) = quote_comma +:+ replaceQuotes s.
Proof.
  unfold quote_comma. rewrite !sapp_cons, sapp_nil_l.
  by rewrite !replaceQuotes_cons.
Qed.

(** **** The label list of a sample line *)

Lemma label_text_fragment (l : label) :
  label_text l = fragment l +:+ String dq "".
Proof.
  unfold label_text, fragment.
  rewrite !sapp_assoc. by rewrite (sapp_cons dq (label_value l)).
Qed.

Lemma concat_snoc (sep x y : string) (xs : list string) :
  String.concat sep (x :: xs ++ [y]) = x +:+ sep +:+ String.concat sep (xs ++ [y]).
Proof. by destruct xs. Qed.

Lemma raw_labels_split (init : list label) (a : label) :
  forallb plain_label (init ++ [a]) = true →
  split quote_comma (replaceQuotes (join "," (label_text <$> init ++ [a])))
  = (canonical_fragment <$> init) ++ [canonical_fragment a +:+ String dq ""].
Proof.
  unfold join. induction init as [|l init IH]; intros Hplain.
  - cbn [app forallb] in Hplain. rewrite andb_true_r in Hplain.
    apply andb_true_iff in Hplain as [[_ Hend]%andb_true_iff Hsep].
    apply negb_true_iff in Hend, Hsep.
    cbn [app fmap list_fmap String.concat].
    rewrite label_text_fragment, replaceQuotes_app by done.
    change (replaceQuotes (String dq "")) with (String dq "").
    by rewrite split_quote_comma_last by by apply includes_snoc_dq.
  - cbn [app forallb] in Hplain.
    apply andb_true_iff in Hplain as [Hl Hplain].
    apply andb_true_iff in Hl as [[_ Hend]%andb_true_iff Hsep].
    apply negb_true_iff in Hend, Hsep.
    rewrite <-app_comm_cons, fmap_cons, fmap_app.
    cbn [fmap list_fmap]. rewrite concat_snoc.
    rewrite label_text_fragment, sapp_assoc.
    change (String dq "" +:+ "," +:+ ?r) with (quote_comma +:+ r).
    rewrite replaceQuotes_app, replaceQuotes_quote_comma by done.
    rewrite split_quote_comma_cons by done.
    rewrite fmap_app in IH. cbn [fmap list_fmap] in IH.
    by rewrite IH.
Qed.

Lemma all_chars_impl (p q : ascii → bool) (s : string) :
  (∀ c, p c = true → q c = true) → all_chars p s = true → all_chars q s = true.
Proof.
  intros Hpq. induction s as [|c s IH]; [done|]. cbn [all_chars].
  intros [Hc Hs]%andb_true_iff. by rewrite (Hpq c Hc), IH.
Qed.

Lemma all_chars_labels (labels : list label) :
  forallb plain_label labels = true →
  all_chars head_char (join "," (label_text <$> labels)) = true.
Proof.
  unfold join. induction labels as [|l labels IH]; [done|].
  cbn [forallb]. intros [Hl Hlabels]%andb_true_iff.
  apply andb_true_iff in Hl as [[Hl _]%andb_true_iff _].
  destruct labels as [|l' labels]; [done|].
  rewrite !fmap_cons, concat_cons, !all_chars_app, Hl.
  rewrite <-fmap_cons, IH by done. done.
Qed.

Lemma name_char_head_char (c : ascii) : is_name_char c = true → head_char c = true.
Proof.
  unfold head_char, is_line_terminator. intros Hc.
  destruct (Ascii.eqb_spec c " ") as [->|_]; [done|].
  destruct (Ascii.eqb_spec c "010") as [->|_]; [done|].
  destruct (Ascii.eqb_spec c "013") as [->|_]; done.
Qed.

Lemma head_char_space (c : ascii) :
  head_char c = true → negb (Ascii.eqb c " ") = true.
Proof. by intros [? _]%andb_true_iff. Qed.

Lemma head_char_line (c : ascii) :
  head_char c = true → negb (is_line_terminator c) = true.
Proof. by intros [_ ?]%andb_true_iff. Qed.

Section Collation.

Context {collation : LocaleCompare}.

(** The key of a sample line whose labels are plain. *)
Lemma sample_of_line_plain (name value : string) (init : list label) (a : label) :
  metric_name name = true →
  forallb plain_label (init ++ [a]) = true →
  fst <$> sample_of_line (sample_line name (init ++ [a]) value)
  = Some (name +:+ "|" +:+
          canonical ((canonical_fragment <$> init)
                     ++ [canonical_fragment a +:+ String dq ""])).
Proof.
  intros Hname Hplain. unfold sample_of_line, sample_line.
  pose proof (all_chars_labels _ Hplain) as Hchars.
  set (rawLabels := join "," (label_text <$> init ++ [a])) in *.
  replace (name +:+ "{" +:+ rawLabels +:+ "} " +:+ value)
    with ((name +:+ "{" +:+ rawLabels +:+ "}") +:+ String " " value)
    by (by rewrite !sapp_assoc).
  rewrite split_space_hd.
  - rewrite match_nameAndLabels_sample; [|done|].
    + cbn [fmap option_fmap option_map fst]. unfold sortedLabels_of_raw, canonical.
      unfold rawLabels. by rewrite raw_labels_split.
    + by apply (all_chars_impl _ _ _ head_char_line).
  - apply andb_true_iff in Hname as [_ Hname].
    rewrite !all_chars_app.
    rewrite (all_chars_impl _ _ name
               (λ c Hc, head_char_space c (name_char_head_char c Hc)) Hname).
    by rewrite (all_chars_impl _ _ _ head_char_space Hchars).
Qed.

Lemma kept_fragments_plain (init : list label) (a : label) :
  forallb plain_label (init ++ [a]) = true →
  kept_fragments (init ++ [a])
  = filter (λ label, keep_label label = true)
      ((canonical_fragment <$> init) ++ [canonical_fragment a +:+ String dq ""]).
Proof. intros Hplain. unfold kept_fragments. by rewrite raw_labels_split. Qed.

(** **** Sorting forgets the order *)

Lemma insert_sorted_Permutation (x : string) (l : list string) :
  insert_sorted x l ≡ₚ x :: l.
Proof.
  induction l as [|y l IH]; [done|]. cbn [insert_sorted].
  destruct (localeCompare x y <=? 0); [done|].
  by rewrite IH, Permutation_swap.
Qed.

Lemma sort_localeCompare_Permutation (l : list string) :
  sort_localeCompare l ≡ₚ l.
Proof.
  induction l as [|x l IH]; [done|]. cbn [sort_localeCompare foldr].
  rewrite insert_sorted_Permutation. by f_equiv.
Qed.

Lemma localeCompare_total (a b : string) :
  localeCompare a b ≤ 0 ∨ localeCompare b a ≤ 0.
Proof. pose proof (localeCompare_swap a b). lia. Qed.

Lemma localeCompare_equal (a b : string) :
  localeCompare a b ≤ 0 → localeCompare b a ≤ 0 → localeCompare a b = 0.
Proof. pose proof (localeCompare_swap a b). lia. Qed.

Lemma insert_sorted_StronglySorted (x : string) (l : list string) :
  StronglySorted (λ a b, localeCompare a b ≤ 0) l →
  StronglySorted (λ a b, localeCompare a b ≤ 0) (insert_sorted x l).
Proof.
  induction 1 as [|y l Hl IH Hy]; cbn [insert_sorted].
  - repeat constructor.
  - destruct (Z.leb_spec (localeCompare x y) 0) as [Hxy|Hxy].
    + constructor; [by constructor|]. constructor; [done|].
      eapply Forall_impl; [exact Hy|]. intros z Hyz.
      by apply (localeCompare_trans x y z).
    + constructor; [done|]. rewrite insert_sorted_Permutation.
      constructor; [|done]. destruct (localeCompare_total x y); [lia | done].
Qed.

Lemma sort_localeCompare_StronglySorted (l : list string) :
  StronglySorted (λ a b, localeCompare a b ≤ 0) (sort_localeCompare l).
Proof.
  induction l as [|x l IH]; [constructor|].
  by apply insert_sorted_StronglySorted.
Qed.

(** Two arrangements of the same texts, no two of which compare equal, are
    sorted to the same list. *)
Lemma sort_localeCompare_perm (l1 l2 : list string) :
  l1 ≡ₚ l2 → distinct_in_collation l1 →
  sort_localeCompare l1 = sort_localeCompare l2.
Proof.
  intros Hperm Hdistinct.
  apply (StronglySorted_unique_strong (λ a b, localeCompare a b ≤ 0));
    [|apply sort_localeCompare_StronglySorted..|].
  - intros x y Hx Hy Hxy Hyx.
    rewrite sort_localeCompare_Permutation in Hx.
    rewrite sort_localeCompare_Permutation, <-Hperm in Hy.
    apply Hdistinct; [done..|]. by apply localeCompare_equal.
  - by rewrite !sort_localeCompare_Permutation.
Qed.

Lemma canonical_perm (fragments1 fragments2 : list string) :
  fragments1 ≡ₚ fragments2 →
  distinct_in_collation (filter (λ label, keep_label label = true) fragments1) →
  canonical fragments1 = canonical fragments2.
Proof.
  intros Hperm Hdistinct. unfold canonical.
  by rewrite (sort_localeCompare_perm _ _ (filter_Permutation _ _ _ Hperm)).
Qed.

Lemma canonical_dropped (fragments : list string) (dropped : string) :
  keep_label dropped = false →
  canonical (fragments ++ [dropped]) = canonical fragments.
Proof.
  intros Hdrop. unfold canonical. rewrite filter_app, filter_cons_False by congruence.
  by rewrite filter_nil, app_nil_r.
Qed.

Lemma startsWith_app_ (s : string) :
  startsWith s "app_" = true → ∃ s', s = "app_" +:+ s'.
Proof.
  unfold startsWith. destruct s as [|c1 [|c2 [|c3 [|c4 s]]]]; [done|..];
    rewrite !prefix_cons; cbn [String.prefix]; rewrite ?andb_false_r; [done..|].
  rewrite prefix_nil, andb_true_r.
  intros [H1 [H2 [H3 H4]%andb_true_iff]%andb_true_iff]%andb_true_iff.
  apply Ascii.eqb_eq in H1 as <-, H2 as <-, H3 as <-, H4 as <-.
  by exists s.
Qed.

(** What stands for an application label in the split is dropped, with or
    without a closing quote behind it. *)
Lemma app_label_dropped (l : label) (closing : string) :
  app_label l = true → keep_label (canonical_fragment l +:+ closing) = false.
Proof.
  intros [name' Hname]%startsWith_app_.
  unfold canonical_fragment, fragment. rewrite Hname, sapp_assoc.
  set (rest := name' +:+ "=" +:+ String dq (label_value l)).
  change ("app_" +:+ rest) with (String "a" (String "p" (String "p" (String "_" rest)))).
  rewrite !(replaceQuotes_cons _ (String _ _)) by done.
  assert (∃ rest', replaceQuotes (String "_" rest) = String "_" rest')
    as [rest' ->].
  { destruct rest as [|c rest]; [by exists ""|].
    rewrite replaceQuotes_cons2. by eexists. }
  unfold keep_label, startsWith. rewrite !sapp_cons, !prefix_cons, prefix_nil.
  done.
Qed.

(** C3, as the code has it: for a sample line with a metric name of
    [[a-z_]] and plain labels, of which the fragments that are kept are told
    apart by the collation of the host, a permutation of the labels that
    keeps the same label last, or has an application label last before and
    after, leaves the canonical key of the parsed line unchanged. *)
Theorem label_order_independence (name value : string)
    (init init' : list label) (a a' : label) :
  metric_name name = true →
  forallb plain_label (init ++ [a]) = true →
  init ++ [a] ≡ₚ init' ++ [a'] →
  a = a' ∨ (app_label a = true ∧ app_label a' = true) →
  distinct_in_collation (kept_fragments (init ++ [a])) →
  fst <$> sample_of_line (sample_line name (init ++ [a]) value)
  = fst <$> sample_of_line (sample_line name (init' ++ [a']) value).
Proof.
  intros Hname Hplain Hperm Hlast Hdistinct.
  assert (forallb plain_label (init' ++ [a']) = true) as Hplain'.
  { apply forallb_forall. intros l Hl.
    apply (proj1 (forallb_forall _ _) Hplain).
    by apply (Permutation_in l (Permutation_sym Hperm)). }
  rewrite kept_fragments_plain in Hdistinct by done.
  rewrite !sample_of_line_plain by done.
  do 3 f_equal. destruct Hlast as [<- | [Happ Happ']].
  - apply canonical_perm; [|done]. apply Permutation_app_inv_r in Hperm.
    by rewrite Hperm.
  - rewrite filter_app, filter_cons_False, filter_nil, app_nil_r in Hdistinct
      by (rewrite app_label_dropped; done).
    rewrite !canonical_dropped by by apply app_label_dropped.
    rewrite <-(canonical_dropped _ (canonical_fragment a))
      by (rewrite <-(sapp_nil_r (canonical_fragment a)); by apply app_label_dropped).
    rewrite <-(canonical_dropped (canonical_fragment <$> init') (canonical_fragment a'))
      by (rewrite <-(sapp_nil_r (canonical_fragment a')); by apply app_label_dropped).
    apply canonical_perm.
    + change [canonical_fragment a] with (canonical_fragment <$> [a]).
      change [canonical_fragment a'] with (canonical_fragment <$> [a']).
      by rewrite <-!fmap_app, Hperm.
    + rewrite filter_app, filter_cons_False, filter_nil, app_nil_r; [done|].
      rewrite <-(sapp_nil_r (canonical_fragment a)), app_label_dropped; done.
Qed.

(** **** Sample lines *)

(** The two ways a list of two texts is sorted. *)
Lemma sort_localeCompare_two (x y : string) :
  sort_localeCompare [x; y]
  = if localeCompare x y <=? 0 then [x; y] else [y; x].
Proof. reflexivity. Qed.

(** C4, at the sample line of metric [m] with the one label [a] of value
    [1] and the sample value 5: the constructor stores the sample under a key
    that ends in two double quotes; [get] with the labels [{ a: '1' }] builds
    the key with one, misses the metric and reports the failure. The number
    is kept as its text. *)
Theorem get_misses_parsed_sample :
  constructor (λ text, text) (sample_line "m" [mkLabel "a" "1"] "5")
  = Return [("m|a=" +:+ quoted "1" +:+ String dq "", Some "5")]
  ∧ get [("m|a=" +:+ quoted "1" +:+ String dq "", Some "5")] []
      "m" (Some [("a", "1")])
    = (None,
       ["Metric not found:" +:+ newline_tab +:+ "m|a=" +:+ quoted "1"
        +:+ String "010" ("Perhaps you meant one of these: " +:+ newline_tab
                          +:+ "m|a=" +:+ quoted "1" +:+ String dq "")]).
Proof. split; vm_compute; reflexivity. Qed.

(** With an application label behind it the same label is found. *)
Example get_finds_sample_before_app_label :
  constructor (λ text, text)
    (sample_line "m" [mkLabel "a" "1"; mkLabel "app_name" "ea"] "5")
  = Return [("m|a=" +:+ quoted "1", Some "5")]
  ∧ get [("m|a=" +:+ quoted "1", Some "5")] [] "m" (Some [("a", "1")])
    = (Some (Some "5"), []).
Proof. split; vm_compute; reflexivity. Qed.

End Collation.

(** In the order of the code units no two different texts compare equal. *)
Lemma code_unit_compare_eq (x y : string) : code_unit_compare x y = 0 → x = y.
Proof.
  unfold code_unit_compare. destruct (String.compare x y) eqn:Hcompare; [|done..].
  intros _. by apply String.compare_eq_iff.
Qed.

Lemma label_order_independence_witness :
  fst <$> sample_of_line (collation := code_unit_collation)
            (sample_line "cache_set_count" feed_labels "5")
  = fst <$> sample_of_line (collation := code_unit_collation)
              (sample_line "cache_set_count" feed_labels_swapped "5").
Proof.
  apply (label_order_independence (collation := code_unit_collation)
           "cache_set_count" "5"
           [mkLabel "feed_id" "eth"; mkLabel "transport" "ws"]
           [mkLabel "transport" "ws"; mkLabel "feed_id" "eth"]
           (mkLabel "app_name" "ea") (mkLabel "app_name" "ea")).
  - reflexivity.
  - reflexivity.
  - apply Permutation_swap.
  - left. reflexivity.
  - intros x y _ _. apply code_unit_compare_eq.
Defined.

(** C3, counterexample: two sample lines whose label lists are
    permutations of each other, both with the application label last, are
    parsed to different keys, whatever the collation of the host: the value
    of the path label holds a closing brace and a space, where the head of
    the line ends, so that the first line has one label left and the second
    two. *)
Lemma label_order_dependence :
  path_labels ≡ₚ path_labels_swapped
  ∧ ∀ collation : LocaleCompare,
      fst <$> sample_of_line (sample_line "http_requests" path_labels "5")
      ≠ fst <$> sample_of_line (sample_line "http_requests" path_labels_swapped "5").
Proof.
  split; [apply Permutation_swap|]. intros collation.
  cbv -[localeCompare Z.leb].
  destruct (localeCompare _ _ <=? 0); vm_compute; discriminate.
Qed.

End TestMetricsFacts.

(** *** RedisMock: sequences of commands and the command chain *)

Module RedisCommandsFacts.
Import JsString JsStringFacts RedisMock RedisCommands.

Section Store.

Context {LocalCache : Type}.
Variable cache_set : LocalCache → string → string → Z → LocalCache.
Variable cache_delete : LocalCache → string → LocalCache.

Implicit Types (r : RedisMock (LocalCache := LocalCache)).
Implicit Types (c : CommandChainMock (LocalCache := LocalCache)).

Lemma evalsha_store r sha n args : store (evalsha r sha n args).2 = store r.
Proof.
  destruct args as [[R H] ttl]. rewrite RedisMockFacts.evalsha_cases.
  destruct (keys r !! R); [by case_decide | by case_bool_decide].
Qed.

(** X1: the lock script returns 1 exactly when the caller holds the resource
    key after the call, and 0 otherwise; it never removes or changes an
    entry of the lock table and never touches the store. *)
Theorem evalsha_returns_1_iff_holder r sha n (R H : string) (ttl : Z) :
  ((evalsha r sha n (R, H, ttl)).1 = 1
   ↔ keys (evalsha r sha n (R, H, ttl)).2 !! R = Some H)
  ∧ ((evalsha r sha n (R, H, ttl)).1 = 0 ∨ (evalsha r sha n (R, H, ttl)).1 = 1)
  ∧ keys r ⊆ keys (evalsha r sha n (R, H, ttl)).2
  ∧ store (evalsha r sha n (R, H, ttl)).2 = store r.
Proof.
  split; [|split; [|split; [|apply evalsha_store]]];
    rewrite RedisMockFacts.evalsha_cases;
    destruct (keys r !! R) as [H'|] eqn:HR;
    [case_decide as Hheld|case_bool_decide as Hinherited
    |case_decide as Hheld|case_bool_decide as Hinherited
    |case_decide as Hheld|case_bool_decide as Hinherited]; cbn; try by auto.
  - by rewrite HR, Hheld.
  - rewrite HR. split; [done | congruence].
  - by rewrite HR.
  - split; [|done]. intros _. apply lookup_insert_eq.
  - by apply insert_subseteq.
Qed.

Lemma run_command_store r r' (cmd : command) :
  is_lock_command cmd = false → store r = store r' →
  store (run_command cache_set cache_delete r cmd)
  = store (run_command cache_set cache_delete r' cmd).
Proof.
  intros Hcmd Hstore. destruct cmd; try done; cbn;
    unfold setExternalAdapterResponse, set, del; rewrite ?Hstore;
    try destruct (includes key "force-error"); done.
Qed.

Lemma run_command_keys r (cmd : command) :
  is_lock_command cmd = false →
  keys (run_command cache_set cache_delete r cmd) = keys r.
Proof.
  intros Hcmd. destruct cmd; try done; cbn;
    unfold setExternalAdapterResponse, set;
    by destruct (includes key "force-error").
Qed.

Lemma run_commands_store r r' (cs : list command) :
  store r = store r' →
  store (run_commands cache_set cache_delete r cs)
  = store (run_commands cache_set cache_delete r'
             (filter (λ cmd, is_lock_command cmd = false) cs)).
Proof.
  revert r r'. induction cs as [|cmd cs IH]; intros r r' Hstore; [done|].
  cbn [run_commands foldl]. destruct (is_lock_command cmd) eqn:Hcmd.
  - rewrite filter_cons_False by congruence. apply IH.
    destruct cmd; try done. cbn. by rewrite evalsha_store.
  - rewrite filter_cons_True by done. cbn [foldl]. apply IH.
    by apply run_command_store.
Qed.

Lemma run_commands_keys r r' (cs : list command) :
  keys r = keys r' →
  keys (run_commands cache_set cache_delete r cs)
  = keys (run_commands cache_set cache_delete r'
            (filter (λ cmd, is_lock_command cmd = true) cs)).
Proof.
  revert r r'. induction cs as [|cmd cs IH]; intros r r' Hkeys; [done|].
  cbn [run_commands foldl]. destruct (is_lock_command cmd) eqn:Hcmd.
  - rewrite filter_cons_True by done. cbn [foldl]. apply IH.
    destruct cmd; try done. destruct args as [[R H] ttl]. cbn [run_command].
    rewrite !RedisMockFacts.evalsha_cases, Hkeys.
    destruct (keys r' !! R); [by case_decide | by case_bool_decide].
  - rewrite filter_cons_False by congruence. apply IH.
    by rewrite run_command_keys.
Qed.

(** X2: the store and the lock table do not interfere: after any sequence
    of calls the store is what the calls other than lock scripts make of it,
    and the lock table what the lock scripts alone make of it. *)
Theorem store_and_locks_independent r (cs : list command) :
  store (run_commands cache_set cache_delete r cs)
  = store (run_commands cache_set cache_delete r
             (filter (λ cmd, is_lock_command cmd = false) cs))
  ∧ keys (run_commands cache_set cache_delete r cs)
    = keys (run_commands cache_set cache_delete r
              (filter (λ cmd, is_lock_command cmd = true) cs)).
Proof. split; [by apply run_commands_store | by apply run_commands_keys]. Qed.

Lemma queue_Return c (q : queued) :
  includes (queued_key q) "force-error" = false →
  queue cache_set c q
  = (Return tt,
     mkChain (promises c ++ [tt])
       (run_command cache_set cache_delete (redisMock c) (as_command q))).
Proof.
  intros Hkey. destruct q; cbn in *;
    unfold chain_set, chain_setExternalAdapterResponse, setExternalAdapterResponse, set;
    by rewrite Hkey.
Qed.

Lemma queue_Throw c (q : queued) :
  includes (queued_key q) "force-error" = true →
  queue cache_set c q = (Throw "anything", c).
Proof.
  intros Hkey. destruct c, q; cbn in *;
    unfold chain_set, chain_setExternalAdapterResponse, setExternalAdapterResponse, set;
    cbn; by rewrite Hkey.
Qed.

Lemma queue_all_Return c (qs : list queued) :
  forallb (λ q, negb (includes (queued_key q) "force-error")) qs = true →
  queue_all cache_set c qs
  = (Return tt,
     mkChain (promises c ++ replicate (length qs) tt)
       (run_commands cache_set cache_delete (redisMock c) (as_command <$> qs))).
Proof.
  revert c. induction qs as [|q qs IH]; intros c Hqs.
  - destruct c. cbn. by rewrite app_nil_r.
  - cbn [forallb] in Hqs. apply andb_true_iff in Hqs as [Hq Hqs].
    apply negb_true_iff in Hq. cbn [queue_all]. rewrite queue_Return by done.
    rewrite IH by done. cbn [promises redisMock length replicate fmap list_fmap].
    by rewrite <-app_assoc.
Qed.

(** X3: calls queued on a chain, none with an error key, act on the store as
    they are queued: before [exec] is called the mock is the one the same
    calls made directly would leave, and [exec] gives one result per call. *)
Theorem chain_acts_when_queued r (qs : list queued) :
  forallb (λ q, negb (includes (queued_key q) "force-error")) qs = true →
  ∃ c, queue_all cache_set (multi r) qs = (Return tt, c)
       ∧ redisMock c = run_commands cache_set cache_delete r (as_command <$> qs)
       ∧ length (exec c) = length qs.
Proof.
  intros Hqs. eexists. rewrite queue_all_Return by done.
  split; [done|]. split; [done|]. cbn. by rewrite length_replicate.
Qed.

(** X4: a call with an error key throws while it is queued; the calls
    queued before it have already acted on the store and stay so, the calls
    after it are never made, and the chain holds the results of the calls
    before it only. *)
Theorem chain_throws_when_queued r (before after : list queued) (bad : queued) :
  forallb (λ q, negb (includes (queued_key q) "force-error")) before = true →
  includes (queued_key bad) "force-error" = true →
  ∃ c, queue_all cache_set (multi r) (before ++ bad :: after) = (Throw "anything", c)
       ∧ redisMock c
         = run_commands cache_set cache_delete r (as_command <$> before)
       ∧ length (exec c) = length before.
Proof.
  intros Hbefore Hbad.
  assert (∀ c qs1 qs2,
            queue_all cache_set c (qs1 ++ qs2)
            = match queue_all cache_set c qs1 with
              | (Return _, c') => queue_all cache_set c' qs2
              | (Throw message, c') => (Throw message, c')
              end) as Happ.
  { intros c qs1 qs2. revert c. induction qs1 as [|q qs1 IH]; intros c; [done|].
    cbn [app queue_all]. destruct (queue cache_set c q) as [[v|message] c']; [apply IH | done]. }
  eexists. rewrite Happ, queue_all_Return by done. cbn [queue_all].
  rewrite queue_Throw by done.
  split; [done|]. split; [done|]. cbn. by rewrite length_replicate.
Qed.

End Store.

Lemma chain_acts_when_queued_witness :
  ∃ c, queue_all (λ (cache : list string) key _ _, key :: cache) (multi (mkRedisMock [] ∅))
         [QueueSet "a" "1" 10; QueueSetExternalAdapterResponse "b" "2" 10]
       = (Return tt, c)
       ∧ redisMock c
         = run_commands (λ (cache : list string) key _ _, key :: cache) (λ cache _, cache)
             (mkRedisMock [] ∅)
             (as_command <$> [QueueSet "a" "1" 10; QueueSetExternalAdapterResponse "b" "2" 10])
       ∧ length (exec c) = 2%nat.
Proof.
  apply (chain_acts_when_queued (λ (cache : list string) key _ _, key :: cache)
           (λ cache _, cache) (mkRedisMock [] ∅)
           [QueueSet "a" "1" 10; QueueSetExternalAdapterResponse "b" "2" 10]).
  reflexivity.
Defined.

Lemma chain_throws_when_queued_witness :
  ∃ c, queue_all (λ (cache : list string) key _ _, key :: cache) (multi (mkRedisMock [] ∅))
         ([QueueSet "a" "1" 10] ++ QueueSet "force-error-key" "2" 10 :: [QueueSet "c" "3" 10])
       = (Throw "anything", c)
       ∧ redisMock c
         = run_commands (λ (cache : list string) key _ _, key :: cache) (λ cache _, cache)
             (mkRedisMock [] ∅) (as_command <$> [QueueSet "a" "1" 10])
       ∧ length (exec c) = 1%nat.
Proof.
  apply (chain_throws_when_queued (λ (cache : list string) key _ _, key :: cache)
           (λ cache _, cache) (mkRedisMock [] ∅)
           [QueueSet "a" "1" 10] [QueueSet "c" "3" 10] (QueueSet "force-error-key" "2" 10));
    reflexivity.
Defined.

End RedisCommandsFacts.

(** *** TestMetrics: the parser beyond one line *)

Module TestMetricsMore.
Import JsString JsStringFacts TestMetrics TestMetricsFacts TestMetricsAssert.

Lemma span_name_spec (s n r : string) :
  span_name s = (n, r) →
  s = n +:+ r ∧ all_chars is_name_char n = true.
Proof.
  revert n r. induction s as [|c s IH]; intros n r; cbn [span_name].
  - by intros [= <- <-].
  - destruct (is_name_char c) eqn:Hc.
    + destruct (span_name s) as [n' r'] eqn:Hs. intros [= <- <-].
      destruct (IH n' r' eq_refl) as [-> Hn'].
      split; [done|]. cbn [all_chars]. by rewrite Hc, Hn'.
    + by intros [= <- <-].
Qed.

Lemma unsnoc_spec (s i : string) (l : ascii) :
  unsnoc s = Some (i, l) → s = i +:+ String l "".
Proof.
  revert i. induction s as [|c s IH]; intros i; cbn [unsnoc]; [done|].
  destruct (unsnoc s) as [[i' l']|] eqn:Hs.
  - intros [= <- <-]. by rewrite (IH i' eq_refl).
  - intros [= <- <-]. by destruct s as [|d s]; [|cbn in Hs; destruct (unsnoc s) as [[??]|]].
Qed.

(** X5: the match of the regular expression succeeds exactly on the texts
    made of a name of one or more characters of [[a-z_]], an opening brace,
    a label text without line terminator and a closing brace, and its groups
    are that name and that label text. *)
Theorem match_nameAndLabels_iff (s name rawLabels : string) :
  match_nameAndLabels s = Some (name, rawLabels)
  ↔ metric_name name = true
    ∧ all_chars (λ c, negb (is_line_terminator c)) rawLabels = true
    ∧ s = name +:+ "{" +:+ rawLabels +:+ "}".
Proof.
  split.
  - unfold match_nameAndLabels.
    destruct (span_name s) as [n r] eqn:Hspan.
    apply span_name_spec in Hspan as [-> Hn].
    destruct n as [|c n]; [done|]. destruct r as [|b body]; [done|].
    destruct (Ascii.eqb_spec b "{") as [->|]; [|done].
    destruct (unsnoc body) as [[raw e]|] eqn:Hbody; [|done].
    apply unsnoc_spec in Hbody as ->.
    destruct (Ascii.eqb_spec e "}") as [->|]; [|done]. cbn [andb].
    destruct (all_chars _ raw) eqn:Hraw; [|done].
    intros [= <- <-]. unfold metric_name. by rewrite Hn.
  - intros (Hname & Hraw & ->). by apply match_nameAndLabels_sample.
Qed.

Lemma replaceQuotes_head (c : ascii) (s : string) :
  ∃ c' x, replaceQuotes (String c s) = String c' x ∧ (c' = c ∨ c' = "'"%char).
Proof.
  destruct s as [|d s]; [by exists c, ""; auto|].
  rewrite replaceQuotes_cons2. destruct (_ && _); eexists _, _; eauto.
Qed.

Lemma replaceQuotes_clean_both (s : string) :
  includes (replaceQuotes s) escaped_quote = false
  ∧ ∀ c, includes (replaceQuotes (String c s)) escaped_quote = false.
Proof.
  unfold escaped_quote. induction s as [|d s [IHs IHcons]].
  - split; [done|]. intros c. cbn [replaceQuotes].
    rewrite includes_cons, prefix_cons. cbn. by rewrite andb_false_r.
  - split; [apply IHcons|]. intros c. rewrite replaceQuotes_cons2.
    destruct (Ascii.eqb c backslash && Ascii.eqb d dq) eqn:Hesc.
    + by rewrite includes_cons, prefix_cons, IHs.
    + rewrite includes_cons, IHcons, orb_false_r.
      destruct (replaceQuotes_head d s) as (d' & x & -> & Hd').
      rewrite !prefix_cons, prefix_nil, andb_true_r, (Ascii.eqb_sym backslash c).
      apply andb_false_iff in Hesc as [->|Hd]; [done|].
      apply andb_false_iff. right.
      destruct Hd' as [->| ->]; [by rewrite Ascii.eqb_sym | done].
Qed.

Lemma replaceQuotes_id_both (s : string) :
  (includes s escaped_quote = false → replaceQuotes s = s)
  ∧ ∀ c, includes (String c s) escaped_quote = false →
         replaceQuotes (String c s) = String c s.
Proof.
  unfold escaped_quote. induction s as [|d s [IHs IHcons]].
  - split; [done|]. done.
  - split; [apply IHcons|]. intros c. rewrite includes_cons.
    intros [Hhere Hlater]%orb_false_iff. rewrite replaceQuotes_cons2.
    rewrite !prefix_cons, prefix_nil, andb_true_r in Hhere.
    rewrite (Ascii.eqb_sym c), (Ascii.eqb_sym d), Hhere.
    by rewrite IHcons.
Qed.

(** X6: [replaceQuotes] leaves no backslash followed by a double quote, a
    second pass changes nothing, and a text without an escaped quote is
    returned as it is. *)
Theorem replaceQuotes_unescapes_all (s : string) :
  includes (replaceQuotes s) escaped_quote = false
  ∧ replaceQuotes (replaceQuotes s) = replaceQuotes s
  ∧ (includes s escaped_quote = false → replaceQuotes s = s).
Proof.
  split; [apply replaceQuotes_clean_both|]. split.
  - apply replaceQuotes_id_both, replaceQuotes_clean_both.
  - apply replaceQuotes_id_both.
Qed.

Section Numbers.

Context {collation : LocaleCompare}.
Context {number : Type}.
Variable Number : option string → number.


(** X7: comment lines, lines of the [nodejs_] and [process_] families and
    empty lines have no part in the snapshot: the constructor gives the same
    result, map or exception, without them. *)
Theorem skipped_lines_ignored (lines : list string) (m : list (string * number)) :
  parse_lines Number (filter (λ line, skipped line = false) lines) m
  = parse_lines Number lines m.
Proof.
  revert m. induction lines as [|line lines IH]; intros m; [done|].
  cbn [parse_lines]. destruct (skipped line) eqn:Hline.
  - rewrite filter_cons_False by congruence. apply IH.
  - rewrite filter_cons_True by done. cbn [parse_lines]. rewrite Hline.
    destruct (sample_of_line line) as [[k v]|]; [apply IH | done].
Qed.


Lemma map_get_set_ne (m : list (string * number)) (k k' : string) (v : number) :
  k ≠ k' → map_get (map_set m k v) k' = map_get m k'.
Proof.
  intros Hne. induction m as [|[k0 v0] m IH]; cbn [map_set map_get].
  - by apply String.eqb_neq in Hne as ->.
  - destruct (String.eqb_spec k0 k) as [->|Hk0]; cbn [map_get].
    + by apply String.eqb_neq in Hne as ->.
    + by rewrite IH.
Qed.





Lemma span_name_all (name : string) :
  all_chars is_name_char name = true → span_name name = (name, "").
Proof.
  induction name as [|c name IH]; [done|]. cbn [all_chars span_name].
  intros [-> Hname]%andb_true_iff. by rewrite IH.
Qed.

(** X9: a sample without a label list, a bare name followed by its value,
    does not match the expression, and the constructor throws on it whatever
    else the text holds after it. *)
Theorem sample_without_labels_throws (name value : string) (rest : list string)
    (m : list (string * number)) :
  all_chars is_name_char name = true →
  skipped (name +:+ String " " value) = false →
  sample_of_line (name +:+ String " " value) = None
  ∧ parse_lines Number ((name +:+ String " " value) :: rest) m
    = Throw "TypeError: object null is not iterable".
Proof.
  intros Hname Hline.
  assert (sample_of_line (name +:+ String " " value) = None) as Hnone.
  { unfold sample_of_line. rewrite split_space_hd.
    - unfold match_nameAndLabels. rewrite span_name_all by done. by destruct name.
    - apply (all_chars_impl is_name_char); [|done].
      intros c Hc. by apply head_char_space, name_char_head_char. }
  split; [done|]. cbn [parse_lines]. by rewrite Hline, Hnone.
Qed.

End Numbers.


Lemma sample_without_labels_throws_witness :
  sample_of_line (collation := code_unit_collation) ("up" +:+ String " " "1") = None
  ∧ parse_lines (collation := code_unit_collation) (λ text, text)
      (("up" +:+ String " " "1") :: ["# EOF"]) []
    = Throw "TypeError: object null is not iterable".
Proof.
  apply (sample_without_labels_throws (collation := code_unit_collation)
           (λ text, text) "up" "1" ["# EOF"] []); reflexivity.
Defined.

End TestMetricsMore.

(** *** TestMetrics: from the constructor to [get] *)

Module TestMetricsRoundTrip.
Import JsString JsStringFacts TestMetrics TestMetricsFacts TestMetricsAssert.








Section Collation.

Context {collation : LocaleCompare}.




End Collation.


End TestMetricsRoundTrip.

(** *** TestMetrics: the assertions *)

Module TestMetricsAssertFacts.
Import JsString TestMetrics TestMetricsAssert.

Section Numbers.

Context {collation : LocaleCompare}.
Context {number : Type}.
Variable same_value : number → number → bool.
Variable greater_than_zero : number → bool.

Lemma app_eq_self {A} (l k : list A) : l ++ k = l → k = [].
Proof.
  intros Heq. apply (f_equal length) in Heq. rewrite length_app in Heq.
  destruct k; [done|]. cbn in Heq. lia.
Qed.

Lemma get_found (m : list (string * number)) t name labels (v : number) :
  map_get m (name +:+ "|" +:+ sortedLabels_of_query labels) = Some v →
  get m t name labels = (Some v, t).
Proof. unfold get. by intros ->. Qed.

Lemma get_missed (m : list (string * number)) t name labels :
  map_get m (name +:+ "|" +:+ sortedLabels_of_query labels) = None →
  ∃ message, get m t name labels = (None, t ++ [message]).
Proof. unfold get. intros ->. by eexists. Qed.

(** X11: [assert] adds no failure exactly when the map holds a value under
    the key of the name and the labels and that value is the expected
    one. *)
Theorem assert_passes_iff (m : list (string * number)) (t : list failure)
    (name : string) (labels : option (list (string * string)))
    (expectedValue : number) :
  assert same_value m t name labels expectedValue = t
  ↔ ∃ v, map_get m (name +:+ "|" +:+ sortedLabels_of_query labels) = Some v
         ∧ same_value v expectedValue = true.
Proof.
  unfold assert.
  destruct (map_get m (name +:+ "|" +:+ sortedLabels_of_query labels))
    as [v|] eqn:Hget.
  - rewrite (get_found _ _ _ _ _ Hget). cbn [fmap list_fmap]. rewrite app_nil_r.
    unfold t_is. destruct (same_value v expectedValue) eqn:Hsame.
    + split; [by exists v | done].
    + split; [by intros ?%app_eq_self | by intros (? & [= <-] & ?); congruence].
  - destruct (get_missed m [] name labels Hget) as [message ->].
    cbn [fmap list_fmap app t_is]. rewrite <-app_assoc.
    split; [by intros ?%app_eq_self | by intros (? & ? & _)].
Qed.

(** X12: [assertPositiveNumber] adds no failure exactly when the map holds
    a value greater than zero under the key of the name and the labels. *)
Theorem assertPositiveNumber_passes_iff (m : list (string * number))
    (t : list failure) (name : string) (labels : option (list (string * string))) :
  assertPositiveNumber greater_than_zero m t name labels = t
  ↔ ∃ v, map_get m (name +:+ "|" +:+ sortedLabels_of_query labels) = Some v
         ∧ greater_than_zero v = true.
Proof.
  unfold assertPositiveNumber.
  destruct (map_get m (name +:+ "|" +:+ sortedLabels_of_query labels))
    as [v|] eqn:Hget.
  - rewrite (get_found _ _ _ _ _ Hget). cbn [fmap list_fmap]. rewrite app_nil_r.
    unfold t_is. destruct (greater_than_zero v) eqn:Hpositive.
    + split; [by exists v | done].
    + split; [by intros ?%app_eq_self | by intros (? & [= <-] & ?); congruence].
  - destruct (get_missed m [] name labels Hget) as [message ->].
    cbn [fmap list_fmap app]. rewrite <-app_assoc.
    split; [by intros ?%app_eq_self | by intros (? & ? & _)].
Qed.

(** X13: a metric that is not in the map is reported twice by each
    assertion: the failure of [get] is followed by the mismatch of the
    comparison in [assert], and by a second failure naming the metric in
    [assertPositiveNumber]. *)
Theorem missing_metric_fails_twice (m : list (string * number)) (t : list failure)
    (name : string) (labels : option (list (string * string)))
    (expectedValue : number) :
  map_get m (name +:+ "|" +:+ sortedLabels_of_query labels) = None →
  ∃ message,
    assert same_value m t name labels expectedValue = t ++ [Fail message; IsNot]
    ∧ assertPositiveNumber greater_than_zero m t name labels
      = t ++ [Fail message; Fail (name +:+ " did not record")].
Proof.
  intros Hget. destruct (get_missed m [] name labels Hget) as [message Hmiss].
  exists message. unfold assert, assertPositiveNumber. rewrite Hmiss.
  cbn [fmap list_fmap app t_is]. by rewrite <-!app_assoc.
Qed.

End Numbers.

Lemma missing_metric_fails_twice_witness :
  ∃ message,
    assert (collation := code_unit_collation) Z.eqb [] [] "requests" None 1
    = [] ++ [Fail message; IsNot]
    ∧ assertPositiveNumber (collation := code_unit_collation) (Z.ltb 0) [] []
        "requests" None
      = [] ++ [Fail message; Fail ("requests" +:+ " did not record")].
Proof.
  apply (missing_metric_fails_twice (collation := code_unit_collation)
           Z.eqb (Z.ltb 0) [] [] "requests" None 1).
  reflexivity.
Defined.

End TestMetricsAssertFacts.

(** *** The drivers of the fake clock: how far they advance *)

Module DriverFacts.
Import Harness HarnessFacts TestAdapterStart.

Section Drivers.

Context {World : Type} `{InstalledClock World}.

Lemma advance_S n (s : state World) :
  advance (S n) s
  = advance n (mkState (nextAsync (world s))
                 (trace s ++ [EvNextAsync (now (nextAsync (world s)))])).
Proof. reflexivity. Qed.

Lemma runAllUntil_pure_S fuel (p : World → bool) (s : state World) :
  p (world s) = false →
  runAllUntil (S fuel) (pure_check p) s
  = runAllUntil fuel (pure_check p)
      (mkState (nextAsync (world s))
         (trace s ++ [EvNextAsync (now (nextAsync (world s)))])).
Proof. intros Hp. cbn [runAllUntil]. unfold pure_check at 1. by rewrite Hp. Qed.

Lemma runAllUntil_pure_first fuel (p : World → bool) (s : state World) (k : nat) :
  (k ≤ fuel)%nat →
  (∀ j, (j < k)%nat → p (Nat.iter j nextAsync (world s)) = false) →
  p (Nat.iter k nextAsync (world s)) = true →
  runAllUntil fuel (pure_check p) s = Returned tt (advance k s).
Proof.
  revert fuel s. induction k as [|k IH]; intros fuel s Hk Hbefore Hat.
  - cbn in Hat. destruct fuel; cbn [runAllUntil advance]; unfold pure_check;
      by rewrite Hat.
  - destruct fuel as [|fuel]; [lia|].
    rewrite runAllUntil_pure_S by (apply (Hbefore 0%nat); lia).
    rewrite advance_S. apply IH; [lia|..]; cbn [world].
    + intros j Hj. rewrite <-Nat.iter_succ_r. apply Hbefore. lia.
    + by rewrite <-Nat.iter_succ_r.
Qed.

Lemma runAllUntil_pure_inv fuel (p : World → bool) (s s' : state World) :
  runAllUntil fuel (pure_check p) s = Returned tt s' →
  ∃ k, (k ≤ fuel)%nat
       ∧ (∀ j, (j < k)%nat → p (Nat.iter j nextAsync (world s)) = false)
       ∧ p (Nat.iter k nextAsync (world s)) = true
       ∧ s' = advance k s.
Proof.
  revert s. induction fuel as [|fuel IH]; intros s.
  - cbn [runAllUntil]. unfold pure_check.
    destruct (p (world s)) eqn:Hp; [|done]. intros [= <-].
    exists 0%nat. split; [lia|]. split; [intros j Hj; lia|]. done.
  - destruct (p (world s)) eqn:Hp.
    + cbn [runAllUntil]. unfold pure_check at 1. rewrite Hp. intros [= <-].
      exists 0%nat. split; [lia|]. split; [intros j Hj; lia|]. done.
    + rewrite runAllUntil_pure_S by done.
      intros (k & Hk & Hbefore & Hat & ->)%IH. cbn [world] in Hbefore, Hat.
      exists (S k). split; [lia|]. split; [|split].
      * intros [|j] Hj; [done|]. rewrite Nat.iter_succ_r. apply Hbefore. lia.
      * by rewrite Nat.iter_succ_r.
      * by rewrite advance_S.
Qed.

(** X14: with a predicate that only reads the realm, [runAllUntil] returns
    exactly when the predicate holds after some number of advancements of
    the clock within the fuel, and then it has advanced the clock as often
    as it takes to reach the first realm where the predicate holds, and no
    further. *)
Theorem runAllUntil_stops_at_first_hit (fuel : nat) (p : World → bool)
    (s s' : state World) :
  runAllUntil fuel (pure_check p) s = Returned tt s'
  ↔ ∃ k, (k ≤ fuel)%nat
         ∧ (∀ j, (j < k)%nat → p (Nat.iter j nextAsync (world s)) = false)
         ∧ p (Nat.iter k nextAsync (world s)) = true
         ∧ s' = advance k s.
Proof.
  split; [apply runAllUntil_pure_inv|].
  intros (k & Hk & Hbefore & Hat & ->). by apply runAllUntil_pure_first.
Qed.

Lemma wait_loop_first {T} (is_undefined : T → bool) fuel (result : Promise World T)
    (s : state World) (k : nat) (v : T) :
  (S k ≤ fuel)%nat →
  (∀ j, (1 ≤ j ≤ k)%nat →
        match result (Nat.iter j nextAsync (world s)) with
        | Some r => is_undefined r = true
        | None => True
        end) →
  result (Nat.iter (S k) nextAsync (world s)) = Some v →
  is_undefined v = false →
  wait_loop is_undefined fuel result s = Returned v (advance (S k) s).
Proof.
  revert fuel s. induction k as [|k IH]; intros fuel s Hk Hbefore Hat Hv;
    (destruct fuel as [|fuel]; [lia|]); rewrite wait_loop_S.
  - cbn in Hat. cbn [advance world]. by rewrite Hat, Hv.
  - assert (wait_loop is_undefined fuel result (advance 1 s)
            = Returned v (advance (S (S k)) s)) as Hrec.
    { rewrite (advance_S (S k)). apply IH; [lia|..|done]; cbn [world].
      - intros j Hj. rewrite <-Nat.iter_succ_r. apply Hbefore. lia.
      - by rewrite <-Nat.iter_succ_r. }
    pose proof (Hbefore 1%nat ltac:(lia)) as H1. cbn in H1.
    cbn [advance world]. cbn [advance] in Hrec.
    destruct (result (nextAsync (world s))) as [r|]; [by rewrite H1 | done].
Qed.

Lemma wait_loop_inv {T} (is_undefined : T → bool) fuel (result : Promise World T)
    (s s' : state World) (v : T) :
  wait_loop is_undefined fuel result s = Returned v s' →
  ∃ k, (S k ≤ fuel)%nat ∧ s' = advance (S k) s ∧ result (world s') = Some v.
Proof.
  revert s. induction fuel as [|fuel IH]; intros s; [done|].
  rewrite wait_loop_S.
  assert (wait_loop is_undefined fuel result (advance 1 s) = Returned v s' →
          ∃ k, (S k ≤ S fuel)%nat ∧ s' = advance (S k) s ∧ result (world s') = Some v)
    as Hagain.
  { intros (k & Hk & -> & Hv)%IH. exists (S k). split; [lia|]. done. }
  destruct (result (world (advance 1 s))) as [r|] eqn:Hr; [|done].
  destruct (is_undefined r); [done|].
  intros [= <- <-]. exists 0%nat. split; [lia|]. done.
Qed.

(** X15: [waitUntilResolved] always advances the clock at least once, and
    it returns the first defined value it sees after an advancement: when
    the result is unsettled or undefined after each of the first [k]
    advancements and is [v] after the next, the call returns [v] in the realm
    after [k + 1] advancements, whatever the promise held before the first
    one. *)
Theorem waitUntilResolved_returns_first_value {T} (is_undefined : T → bool)
    (fuel : nat) (fn : M World (Promise World T)) (result : Promise World T)
    (s s1 : state World) (k : nat) (v : T) :
  fn s = Returned result s1 →
  (S k ≤ fuel)%nat →
  (∀ j, (1 ≤ j ≤ k)%nat →
        match result (Nat.iter j nextAsync (world s1)) with
        | Some r => is_undefined r = true
        | None => True
        end) →
  result (Nat.iter (S k) nextAsync (world s1)) = Some v →
  is_undefined v = false →
  waitUntilResolved is_undefined fuel fn s = Returned v (advance (S k) s1)
  ∧ clock_advances (trace (advance (S k) s1))
    = (clock_advances (trace s1) + S k)%nat
  ∧ ∀ w s', waitUntilResolved is_undefined fuel fn s = Returned w s' →
            (clock_advances (trace s1) < clock_advances (trace s'))%nat.
Proof.
  intros Hfn Hk Hbefore Hat Hv. unfold waitUntilResolved. rewrite Hfn.
  split; [by apply wait_loop_first|]. split; [apply clock_advances_advance|].
  intros w s' (k' & _ & -> & _)%wait_loop_inv.
  rewrite clock_advances_advance. lia.
Qed.

(** X16: an exception of the operation never reaches the caller of
    [waitUntilResolved]: the result stays undefined and the loop is still
    advancing the clock when the fuel is spent. *)
Theorem waitUntilResolved_swallows_exception {T} (is_undefined : T → bool)
    (fuel : nat) (fn : M World (Promise World T)) (message : string)
    (s s1 : state World) :
  fn s = Thrown message s1 →
  waitUntilResolved is_undefined fuel fn s = Hung (advance fuel s1)
  ∧ clock_advances (trace (advance fuel s1)) = (clock_advances (trace s1) + fuel)%nat.
Proof.
  intros Hfn. unfold waitUntilResolved. rewrite Hfn.
  split; [by apply wait_loop_spins | apply clock_advances_advance].
Qed.

Lemma periodic_loop_immediate (fuel : nat) (interval : Z) (sv : Z → World → bool)
    (i : Z) (remaining : nat) (s : state World) :
  (∀ i w, sv i w = true) →
  ∃ s', periodic_loop fuel interval (λ i, pure_check (sv i)) i remaining s
        = Returned tt s'
        ∧ world s' = Nat.iter remaining (tickAsync interval) (world s)
        ∧ trace s' = trace s ++ periodic_trace interval i (replicate remaining []).
Proof.
  intros Hsv. revert i s.
  induction remaining as [|remaining IH]; intros i s; cbn [periodic_loop].
  - exists s. cbn [replicate periodic_trace]. by rewrite app_nil_r.
  - unfold mbind, M_bind, bind, clock_tickAsync.
    assert (∀ s1, runAllUntil fuel (call_stepValidation (λ i, pure_check (sv i)) i) s1
                  = Returned tt (mkState (world s1)
                                   (trace s1 ++ [EvStepValidation i true]))) as ->.
    { intros s1. destruct fuel; cbn [runAllUntil];
        by rewrite call_stepValidation_pure, Hsv. }
    cbn [world trace].
    destruct (IH (i + 1) (mkState (tickAsync interval (world s))
                            ((trace s ++ [EvTickAsync interval])
                               ++ [EvStepValidation i true])))
      as (s' & -> & Hworld & Htrace).
    exists s'. split; [done|]. cbn [world trace] in Hworld, Htrace.
    split; [by rewrite Hworld, Nat.iter_succ_r|].
    rewrite Htrace. cbn [replicate periodic_trace gate_trace].
    by rewrite <-!app_assoc.
Qed.

(** X17: when every step validation holds at once,
    [runPeriodicAsyncBackgroundExecution] returns whatever the fuel: it has
    ticked the clock by the interval once for each iteration, checked each
    iteration once and never called [nextAsync]; with [times] zero or
    negative nothing happens at all. *)
Theorem runPeriodic_immediate (fuel : nat) (interval times : Z)
    (stepValidation : Z → World → bool) (s : state World) :
  (∀ i w, stepValidation i w = true) →
  ∃ s', runPeriodicAsyncBackgroundExecution fuel interval times
          (λ i, pure_check (stepValidation i)) s = Returned tt s'
        ∧ world s' = Nat.iter (Z.to_nat times) (tickAsync interval) (world s)
        ∧ trace s' = trace s ++ periodic_trace interval 0 (replicate (Z.to_nat times) [])
        ∧ (times ≤ 0 → s' = s).
Proof.
  intros Hsv. unfold runPeriodicAsyncBackgroundExecution.
  destruct (periodic_loop_immediate fuel interval stepValidation 0 (Z.to_nat times) s Hsv)
    as (s' & Hrun & Hworld & Htrace).
  exists s'. split; [done|]. split; [done|]. split; [done|].
  intros Htimes. revert Hrun. replace (Z.to_nat times) with 0%nat by lia.
  cbn [periodic_loop]. by intros [= <-].
Qed.

End Drivers.

End DriverFacts.

(** *** TestAdapter: requests and the cache *)

Module TestAdapterFacts.
Import Harness HarnessFacts TestAdapterStart DriverFacts.

Section Adapter.

Context {World : Type} `{InstalledClock World}.
Context {FastifyInstance ClockRef MockCache Payload Response Expected : Type}.
Variable inject : FastifyInstance → Payload → World → World * Promise World Response.
Variable statusCode : Response → Z.
Variable cache_size : MockCache → World → Z.

Implicit Types (a : TestAdapter (FastifyInstance := FastifyInstance)
                      (ClockRef := ClockRef) (MockCache := MockCache)).

Lemma inject_calls_app (tr1 tr2 : list event) :
  inject_calls (tr1 ++ tr2) = (inject_calls tr1 + inject_calls tr2)%nat.
Proof. unfold inject_calls. by rewrite filter_app, length_app. Qed.

Lemma inject_calls_advance n (s : state World) :
  inject_calls (trace (advance n s)) = inject_calls (trace s).
Proof.
  revert s. induction n as [|n IH]; intros s; cbn [advance]; [done|].
  rewrite IH. cbn [trace]. rewrite inject_calls_app.
  change (inject_calls [EvNextAsync (now (nextAsync (world s)))]) with 0%nat. lia.
Qed.

Lemma inject_calls_snoc (tr : list event) (e : event) :
  is_inject e = false → inject_calls (tr ++ [e]) = inject_calls tr.
Proof.
  intros He. rewrite inject_calls_app. unfold inject_calls at 2.
  rewrite filter_cons_False by congruence. cbn. lia.
Qed.

Lemma makeRequest_returns a (data : Payload) (s : state World) :
  ∃ p s1, makeRequest inject a data s = Returned p s1
          ∧ inject_calls (trace s1) = S (inject_calls (trace s))
          ∧ clock_advances (trace s1) = clock_advances (trace s).
Proof.
  unfold makeRequest. destruct (inject (api a) data (world s)) as [w p].
  eexists _, _. split; [done|]. cbn [trace].
  rewrite inject_calls_app, clock_advances_app.
  change (inject_calls [EvInject]) with 1%nat.
  change (clock_advances [EvInject]) with 0%nat. lia.
Qed.

Lemma request_injects_once_aux (fuel : nat) a (data : Payload)
    (p : Promise World Response) (s s' : state World) :
  request inject fuel a data s = Returned p s' →
  inject_calls (trace s') = S (inject_calls (trace s)).
Proof.
  unfold request.
  destruct (makeRequest_returns a data s) as (p1 & s1 & Hmake & Hinject & Hclock).
  destruct (clock a) as [c|].
  - unfold mbind, M_bind, bind, waitUntilResolved. rewrite Hmake.
    destruct (wait_loop _ fuel p1 s1) as [r s2|message s2|s2] eqn:Hwait; try done.
    apply wait_loop_inv in Hwait as (k & _ & Hs2 & _). intros [= <- <-].
    by rewrite Hs2, inject_calls_advance.
  - rewrite Hmake. by intros [= <- <-].
Qed.


(** The size that [waitForCache] waits for. *)
Lemma waitForCache_unfold (fuel : nat) a (c : ClockRef) (cache : MockCache)
    (expectedSize : option Z) :
  clock a = Some c → mockCache a = Some cache →
  waitForCache cache_size fuel a expectedSize
  = runAllUntil fuel
      (pure_check (λ w, match expectedSize with
                        | Some n => if n =? 0 then 1 else n
                        | None => 1
                        end <=? cache_size cache w)).
Proof. unfold waitForCache. by intros -> ->. Qed.

(** X19: [waitForCache] returns exactly when the adapter has a clock and a
    mock cache and the cache comes to hold enough entries within the fuel,
    and it has then advanced the clock as often as it takes to reach the
    first realm where it does, not at all when it does on entry. With an
    expected size that is left out or not negative, enough is the expected
    size and at least one: an expected size of zero waits for the first
    entry. *)
Theorem waitForCache_returns_filled (fuel : nat) a (expectedSize : option Z)
    (s s' : state World) :
  (∀ n, expectedSize = Some n → 0 ≤ n) →
  waitForCache cache_size fuel a expectedSize s = Returned tt s'
  ↔ ∃ c cache k,
      clock a = Some c
      ∧ mockCache a = Some cache
      ∧ (k ≤ fuel)%nat
      ∧ (∀ j, (j < k)%nat →
              cache_size cache (Nat.iter j nextAsync (world s))
              < Z.max 1 (default 1 expectedSize))
      ∧ Z.max 1 (default 1 expectedSize)
        ≤ cache_size cache (Nat.iter k nextAsync (world s))
      ∧ s' = advance k s.
Proof.
  intros Hsize.
  assert (match expectedSize with
          | Some n => if n =? 0 then 1 else n
          | None => 1
          end = Z.max 1 (default 1 expectedSize)) as Hwanted.
  { destruct expectedSize as [n|]; cbn [default from_option]; [|done].
    specialize (Hsize n eq_refl). unfold id. destruct (Z.eqb_spec n 0); lia. }
  split.
  - intros Hwait.
    destruct (clock a) as [c|] eqn:Hclock;
      [|by unfold waitForCache in Hwait; rewrite Hclock in Hwait].
    destruct (mockCache a) as [cache|] eqn:Hcache.
    + rewrite (waitForCache_unfold fuel a c cache) in Hwait by done.
      apply runAllUntil_pure_inv in Hwait as (k & Hk & Hbefore & Hat & ->).
      exists c, cache, k. rewrite <-Hwanted. repeat (split; [done|]).
      split; [|split; [|done]].
      * intros j Hj. specialize (Hbefore j Hj). by apply Z.leb_gt in Hbefore.
      * by apply Z.leb_le in Hat.
    + unfold waitForCache in Hwait. rewrite Hclock, Hcache in Hwait.
      by destruct fuel.
  - intros (c & cache & k & Hclock & Hcache & Hk & Hbefore & Hat & ->).
    rewrite (waitForCache_unfold fuel a c cache) by done.
    apply runAllUntil_pure_first; [done|..]; rewrite Hwanted.
    + intros j Hj. by apply Z.leb_gt, Hbefore.
    + by apply Z.leb_le.
Qed.

(** X20: with a clock but without a mock cache [waitForCache] throws at its
    first look at the cache, before the clock is advanced. *)
Theorem waitForCache_without_mock_cache (fuel : nat) a (c : ClockRef)
    (expectedSize : option Z) (s : state World) :
  clock a = Some c → mockCache a = None →
  ∃ message, waitForCache cache_size fuel a expectedSize s = Thrown message s.
Proof.
  intros Hclock Hcache. unfold waitForCache. rewrite Hclock, Hcache.
  eexists. by destruct fuel.
Qed.

Lemma await_returned {T} (p : Promise World T) (v : T) (s s' : state World) :
  await p s = Returned v s' → s' = s.
Proof. unfold await. destruct (p (world s)); [|done]. by intros [= _ <-]. Qed.

(** X21: a call of [startBackgroundExecuteThenGetResponse] that returns has
    injected exactly two requests, and the last thing it did is the final
    assertion: the comparison with the expected response when one is given,
    the comparison of the status code with 200 otherwise. *)
Theorem startBackground_two_requests (fuel : nat) a (requestData : Payload)
    (expectedResponse : option Expected) (expectedCacheSize : option Z)
    (response : Response) (s s' : state World) :
  startBackgroundExecuteThenGetResponse inject statusCode cache_size fuel a
    requestData expectedResponse expectedCacheSize s = Returned response s' →
  inject_calls (trace s') = S (S (inject_calls (trace s)))
  ∧ ∃ tr, trace s'
          = tr ++ [match expectedResponse with
                   | Some _ => EvAssertEqualResponses
                   | None => EvIsStatusCode (statusCode response) 200
                   end].
Proof.
  unfold startBackgroundExecuteThenGetResponse.
  destruct (clock a) as [c|] eqn:Hclock; [|done].
  destruct (mockCache a) as [cache|] eqn:Hcache; [|done].
  rewrite (waitForCache_unfold fuel a c cache) by done.
  unfold mbind, M_bind, bind.
  destruct (request inject fuel a requestData s) as [p1 s1| |] eqn:Hfirst; try done.
  apply request_injects_once_aux in Hfirst.
  destruct (await p1 s1) as [error s2| |] eqn:Hawait1; try done.
  apply await_returned in Hawait1 as ->. unfold log at 1. cbn [world trace].
  destruct (runAllUntil fuel _ _) as [[] s3| |] eqn:Hwait; try done.
  apply runAllUntil_pure_inv in Hwait as (k & _ & _ & _ & ->).
  destruct (request inject fuel a requestData _) as [p2 s4| |] eqn:Hsecond; try done.
  apply request_injects_once_aux in Hsecond.
  rewrite inject_calls_advance in Hsecond. cbn [trace] in Hsecond.
  rewrite inject_calls_snoc in Hsecond by done.
  destruct (await p2 s4) as [response' s5| |] eqn:Hawait2; try done.
  apply await_returned in Hawait2 as ->.
  destruct expectedResponse as [expected|]; unfold log; cbn [world trace];
    intros [= <- <-]; cbn [trace];
    (split; [rewrite inject_calls_snoc by done; lia | by eexists]).
Qed.

End Adapter.

End TestAdapterFacts.

(** *** TestAdapter: which cache a started adapter watches *)

Module TestAdapterStartFacts.
Import Harness TestAdapterStart.

Section Start.

Context {World FastifyInstance ClockRef MockCache Adapter Value : Type}.
Variable ea_start : Adapter → option (gmap string Value)
                    → M World (option FastifyInstance * option FastifyInstance).
Variable new_MockCache : Adapter → M World MockCache.
Variable of_MockCache : MockCache → Value.
Variable as_MockCache : Value → option MockCache.

Implicit Types (ctx : context (FastifyInstance := FastifyInstance)
                        (ClockRef := ClockRef) (MockCache := MockCache)).

Lemma start_returned (adapter : Adapter) ctx (dependencies : option (gmap string Value))
    testAdapter ctx' (s s' : state World) :
  start ea_start as_MockCache adapter ctx dependencies s
  = Returned (testAdapter, ctx') s' →
  ctx_testAdapter ctx' = Some testAdapter
  ∧ ctx_clock ctx' = ctx_clock ctx
  ∧ clock testAdapter = ctx_clock ctx
  ∧ mockCache testAdapter = (dependencies ≫= (.!! "cache")) ≫= as_MockCache.
Proof.
  unfold start, mbind at 1, M_bind, bind.
  destruct (ea_start adapter dependencies s) as [[[api|] metricsApi] s1| |]; try done.
  cbn [fst snd]. by intros [= <- <- <-].
Qed.

(** X22: the adapter that [startWithMockedCache] returns is the one it
    leaves in the context, with the clock of the context. It watches the
    fresh mock cache only when the dependencies of the caller have no
    [cache] of their own: a [cache] among them replaces the fresh one, and
    the adapter has a mock cache then only if that one is a mock cache. *)
Theorem startWithMockedCache_watched_cache (adapter : Adapter) ctx
    (dependencies : option (gmap string Value)) testAdapter ctx'
    (s s' : state World) :
  (∀ c, as_MockCache (of_MockCache c) = Some c) →
  startWithMockedCache ea_start new_MockCache of_MockCache as_MockCache
    adapter ctx dependencies s = Returned (testAdapter, ctx') s' →
  ctx_testAdapter ctx' = Some testAdapter
  ∧ clock testAdapter = ctx_clock ctx
  ∧ ∃ fresh s1,
      new_MockCache adapter s = Returned fresh s1
      ∧ mockCache testAdapter
        = match dependencies ≫= (.!! "cache") with
          | Some cache => as_MockCache cache
          | None => Some fresh
          end.
Proof.
  intros Hinstance. unfold startWithMockedCache, mbind at 1, M_bind, bind.
  destruct (new_MockCache adapter s) as [fresh s1| |]; try done.
  intros (Hctx & _ & Hclock & Hcache)%start_returned.
  split; [done|]. split; [done|]. exists fresh, s1. split; [done|].
  rewrite Hcache. cbn [mbind option_bind].
  destruct dependencies as [dependencies|]; cbn [default mbind option_bind].
  - destruct (dependencies !! "cache") as [cache|] eqn:Hown.
    + by rewrite (lookup_union_Some_l _ _ _ _ Hown).
    + rewrite lookup_union_r by done. rewrite lookup_singleton_eq. apply Hinstance.
  - rewrite lookup_union_r by apply lookup_empty.
    rewrite lookup_singleton_eq. apply Hinstance.
Qed.

End Start.

End TestAdapterStartFacts.

(** *** makeStub: a stub reads like the object it wraps *)

Module StubPathFacts.
Import Stub StubPaths.

Section Reads.

Variable builtin : value → prop → value.

Lemma unwrap_makeStub (name : string) (v : value) : unwrap (makeStub name v) = v.
Proof. by destruct v. Qed.

Lemma read_returned (x y : stub) (p : prop) (out : list string) :
  (∀ target q, builtin (VObject target) q = get_prop target q) →
  read builtin x p = (Return y, out) →
  plain_read builtin (unwrap x) p = Return (unwrap y) ∧ out = [].
Proof.
  intros Hown. destruct x as [v|name target]; cbn [read unwrap].
  - destruct v; intros [= <- <-]; done.
  - unfold proxy_get. case_match; [done|]. intros [= <- <-].
    by rewrite unwrap_makeStub, <-Hown.
Qed.

Lemma read_path_returned (x y : stub) (path : list prop) (out : list string) :
  (∀ target q, builtin (VObject target) q = get_prop target q) →
  read_path builtin x path = (Return y, out) →
  plain_path builtin (unwrap x) path = Return (unwrap y) ∧ out = [].
Proof.
  intros Hown. revert x out.
  induction path as [|p path IH]; intros x out; cbn [read_path plain_path].
  - by intros [= <- <-].
  - destruct (read builtin x p) as [[x'|message] out1] eqn:Hread; [|done].
    apply read_returned in Hread as [-> ->]; [|done].
    destruct (read_path builtin x' path) as [r out2] eqn:Hrest.
    intros [= -> <-]. by apply IH in Hrest as [-> ->].
Qed.

(** X23: a stub is transparent where it does not throw: when reading a
    path through the stub returns, reading the same path of the wrapped
    value returns the value behind the result, and nothing was written to
    the console. *)
Theorem makeStub_transparent (name : string) (v : value) (path : list prop)
    (y : stub) (out : list string) :
  (∀ target q, builtin (VObject target) q = get_prop target q) →
  read_path builtin (makeStub name v) path = (Return y, out) →
  plain_path builtin v path = Return (unwrap y) ∧ out = [].
Proof.
  intros Hown Hread. rewrite <-(unwrap_makeStub name v) at 1.
  by apply read_path_returned.
Qed.

Lemma read_path_plain (v : value) (path : list prop) (name : string)
    (target : list (prop * value)) (out : list string) :
  read_path builtin (Plain v) path ≠ (Return (Proxy name target), out).
Proof.
  revert v out. induction path as [|p path IH]; intros v out; cbn [read_path]; [done|].
  destruct v; cbn [read]; try done;
    destruct (read_path builtin (Plain _) path) as [r out2] eqn:Hrest;
    intros [= -> <-]; by apply IH in Hrest.
Qed.

Lemma read_path_proxy_name (x : stub) (path : list prop) (name name' : string)
    (target target' : list (prop * value)) (out : list string) :
  x = Proxy name target →
  read_path builtin x path = (Return (Proxy name' target'), out) →
  name' = path_name name path.
Proof.
  revert x name target out.
  induction path as [|p path IH]; intros x name target out ->; cbn [read_path].
  - by intros [= <- _ _].
  - cbn [read]. unfold proxy_get.
    destruct (negb (has_prop target p) && negb (isStubPropAllowedUndefined p)); [done|].
    destruct (read_path builtin (makeStub _ _) path) as [r out2] eqn:Hrest.
    intros [= -> <-]. cbn [path_name foldl]. fold (path_name (name +:+ "." +:+ String_of_prop p) path).
    destruct (get_prop target p) eqn:Hvalue; cbn [makeStub] in Hrest;
      try (by apply read_path_plain in Hrest).
    by eapply IH.
Qed.

(** X24: every stub reached from a stub carries the path that led to it:
    its name is the name of the root followed by the properties read, each
    after a dot, which is the name its errors report. *)
Theorem makeStub_nested_name (name name' : string) (v : value) (path : list prop)
    (target' : list (prop * value)) (out : list string) (p : prop) :
  read_path builtin (makeStub name v) path = (Return (Proxy name' target'), out) →
  name' = path_name name path
  ∧ (has_prop target' p = false → isStubPropAllowedUndefined p = false →
     read builtin (Proxy name' target') p
     = (Throw (does_not_exist (path_name name (path ++ [p]))),
        [does_not_exist (path_name name (path ++ [p]))])).
Proof.
  intros Hread.
  assert (name' = path_name name path) as ->.
  { destruct v; cbn [makeStub] in Hread; try (by apply read_path_plain in Hread).
    by eapply read_path_proxy_name. }
  split; [done|]. intros Hhas Hallowed. cbn [read]. unfold proxy_get.
  rewrite Hhas, Hallowed. unfold path_name. by rewrite foldl_app.
Qed.

End Reads.

Lemma makeStub_transparent_witness :
  plain_path (λ v q, match v with VObject target => get_prop target q | _ => VUndefined end)
    (VObject [(PString "foo", VObject [(PString "bar", VNumber 1)])])
    [PString "foo"; PString "bar"]
  = Return (unwrap (Plain (VNumber 1))) ∧ @nil string = [].
Proof.
  apply (makeStub_transparent
           (λ v q, match v with VObject target => get_prop target q | _ => VUndefined end)
           "obj" (VObject [(PString "foo", VObject [(PString "bar", VNumber 1)])])
           [PString "foo"; PString "bar"] (Plain (VNumber 1)) []).
  - reflexivity.
  - reflexivity.
Defined.

Lemma makeStub_nested_name_witness :
  "obj.foo" = path_name "obj" [PString "foo"]
  ∧ (has_prop [(PString "bar", VNumber 1)] (PString "baz") = false →
     isStubPropAllowedUndefined (PString "baz") = false →
     read (λ _ _, VUndefined) (Proxy "obj.foo" [(PString "bar", VNumber 1)]) (PString "baz")
     = (Throw (does_not_exist (path_name "obj" ([PString "foo"] ++ [PString "baz"]))),
        [does_not_exist (path_name "obj" ([PString "foo"] ++ [PString "baz"]))])).
Proof.
  apply (makeStub_nested_name (λ _ _, VUndefined) "obj" "obj.foo"
           (VObject [(PString "foo", VObject [(PString "bar", VNumber 1)])])
           [PString "foo"] [(PString "bar", VNumber 1)] [] (PString "baz")).
  reflexivity.
Defined.

End StubPathFacts.

(** *** MockCache: who is told about a set *)

Module MockCacheFacts.
Import MockCache.

Section Cache.

Context {LocalCache Value : Type}.
Variable local_set : LocalCache → string → Value → Z → LocalCache.

Implicit Types (c : MockCache (LocalCache := LocalCache) (Value := Value)).

Lemma resolve_lookup (p q : nat) (value : Value) (promises : gmap nat Value) :
  resolve p value promises !! q
  = match promises !! q with
    | Some v => Some v
    | None => if decide (p = q) then Some value else None
    end.
Proof.
  unfold resolve. destruct (promises !! p) as [v|] eqn:Hp.
  - destruct (promises !! q) as [w|] eqn:Hq; [done|].
    case_decide; [congruence | done].
  - destruct (decide (p = q)) as [->|Hne].
    + by rewrite lookup_insert_eq, Hp.
    + rewrite lookup_insert_ne by done. by destruct (promises !! q).
Qed.

Lemma made_before_run_call c (op : call) :
  made_before c → made_before (run_call local_set c op).
Proof.
  intros [Hsettled Hawaiting]. destruct op as [key value ttl|]; split; cbn.
  - intros p Hp. destruct (awaitingPromiseResolve c) as [q|] eqn:Hq; [|by apply Hsettled].
    rewrite resolve_lookup, Hsettled by done.
    specialize (Hawaiting q eq_refl). case_decide; [lia | done].
  - done.
  - intros p Hp. apply Hsettled. lia.
  - intros p [= <-]. lia.
Qed.

Lemma made_before_run_calls c (ops : list call) :
  made_before c → made_before (run_calls local_set c ops).
Proof.
  revert c. induction ops as [|op ops IH]; intros c Hc; [done|].
  apply IH. by apply made_before_run_call.
Qed.

Lemma made_before_new (empty : LocalCache) :
  made_before (new_MockCache (Value := Value) empty).
Proof. split; [done|]. by intros p [=]. Qed.

Lemma settled_run_calls c (ops : list call) (p : nat) (value : Value) :
  settled c !! p = Some value → settled (run_calls local_set c ops) !! p = Some value.
Proof.
  revert c. induction ops as [|op ops IH]; intros c Hp; [done|].
  apply IH. destruct op as [key v ttl|]; cbn; [|done].
  destruct (awaitingPromiseResolve c) as [q|]; [|done].
  by rewrite resolve_lookup, Hp.
Qed.

(** X25: the promise of [waitForNextSet] is unsettled when it is made, the
    next [set] resolves it with the value that is set, and whatever is
    called on the cache afterwards leaves it at that value. *)
Theorem waitForNextSet_resolved_by_next_set (empty : LocalCache)
    (history later : list call) (key : string) (value : Value) (ttl : Z) :
  let waiting := waitForNextSet (run_calls local_set (new_MockCache empty) history) in
  settled waiting.2 !! waiting.1 = None
  ∧ settled (run_calls local_set (set local_set waiting.2 key value ttl) later)
      !! waiting.1
    = Some value.
Proof.
  pose proof (made_before_run_calls _ history (made_before_new empty)) as [Hsettled _].
  cbn zeta. cbn [waitForNextSet fst snd settled].
  rewrite Hsettled by done. split; [done|].
  apply settled_run_calls. cbn. by rewrite resolve_lookup, Hsettled, decide_True.
Qed.

Lemma never_resolved c (ops : list call) (p : nat) :
  settled c !! p = None → awaitingPromiseResolve c ≠ Some p → (p < made c)%nat →
  settled (run_calls local_set c ops) !! p = None.
Proof.
  revert c. induction ops as [|op ops IH]; intros c Hp Hawaiting Hmade; [done|].
  apply IH; destruct op as [key v ttl|]; cbn; try done.
  - destruct (awaitingPromiseResolve c) as [q|]; [|done].
    rewrite resolve_lookup, Hp. case_decide; congruence.
  - intros [= Heq]. lia.
  - lia.
Qed.

(** X26: only the latest waiter is told: a promise of [waitForNextSet] that
    is followed by another [waitForNextSet] before any [set] is never
    resolved, whatever is called on the cache afterwards. *)
Theorem superseded_waiter_never_resolved (empty : LocalCache)
    (history later : list call) :
  let first := waitForNextSet (run_calls local_set (new_MockCache empty) history) in
  let second := waitForNextSet first.2 in
  first.1 ≠ second.1
  ∧ settled (run_calls local_set second.2 later) !! first.1 = None.
Proof.
  pose proof (made_before_run_calls _ history (made_before_new empty)) as [Hsettled _].
  cbn zeta. cbn [waitForNextSet fst snd made]. split; [lia|].
  apply never_resolved; cbn.
  - by apply Hsettled.
  - intros [= Heq]. lia.
  - lia.
Qed.

End Cache.

End MockCacheFacts.

(** *** The loops over the properties of an object *)

Module ObjectLoopFacts.
Import JsString ObjectLoops.

Lemma foldl_delete_lookup {Listeners : Type} (keep : string → bool)
    (eventTypes : list string) (listeners : gmap string Listeners) (k : string) :
  foldl (λ ls eventType, if negb (keep eventType) then delete eventType ls else ls)
    listeners eventTypes !! k
  = if negb (keep k) && bool_decide (k ∈ eventTypes) then None else listeners !! k.
Proof.
  revert listeners. induction eventTypes as [|e eventTypes IH]; intros listeners.
  - cbn [foldl]. rewrite bool_decide_eq_false_2 by apply not_elem_of_nil.
    by rewrite andb_false_r.
  - cbn [foldl]. rewrite IH.
    destruct (keep k) eqn:Hk; cbn [negb andb].
    + destruct (keep e) eqn:He; cbn [negb]; [done|].
      apply lookup_delete_ne. intros ->. congruence.
    + destruct (decide (k ∈ eventTypes)) as [Hin|Hout].
      * rewrite !bool_decide_eq_true_2; [done| by right | done].
      * rewrite (bool_decide_eq_false_2 _ Hout).
        destruct (decide (e = k)) as [->|Hne].
        -- rewrite Hk. cbn [negb]. rewrite lookup_delete_eq.
           by rewrite bool_decide_eq_true_2 by left.
        -- rewrite bool_decide_eq_false_2
             by (intros [?|?]%elem_of_cons; [congruence | done]).
           destruct (keep e); cbn [negb]; [done|]. by apply lookup_delete_ne.
Qed.

(** X27: [removeAllListeners] keeps exactly the listeners of the event
    types that start with [server], with what they were, and removes every
    other event type. *)
Theorem removeAllListeners_keeps_server {Listeners : Type}
    (listeners : gmap string Listeners) (eventType : string) :
  removeAllListeners listeners !! eventType
  = if startsWith eventType "server" then listeners !! eventType else None.
Proof.
  unfold removeAllListeners. rewrite foldl_delete_lookup.
  destruct (startsWith eventType "server"); cbn [negb andb]; [done|].
  case_bool_decide as Hin; [done|].
  destruct (listeners !! eventType) as [l|] eqn:Hlookup; [|done].
  destruct Hin. apply list_elem_of_fmap. exists (eventType, l).
  split; [done|]. by apply elem_of_map_to_list.
Qed.

Lemma foldl_insert_lookup (entries : list (string * option string))
    (env : gmap string string) (k : string) :
  NoDup entries.*1 →
  foldl (λ e kv, <[kv.1 := env_string kv.2]> e) env entries !! k
  = match (list_to_map entries : gmap string (option string)) !! k with
    | Some v => Some (env_string v)
    | None => env !! k
    end.
Proof.
  revert env. induction entries as [|[key v] entries IH]; intros env; [done|].
  rewrite fmap_cons, NoDup_cons. intros [Hfresh Hentries].
  cbn [foldl fst snd]. rewrite IH by done. rewrite list_to_map_cons.
  cbn [fst snd] in Hfresh.
  destruct (decide (key = k)) as [->|Hne].
  - rewrite lookup_insert_eq.
    rewrite (not_elem_of_list_to_map_1 entries k Hfresh).
    by rewrite lookup_insert_eq.
  - rewrite (lookup_insert_ne (list_to_map entries)) by done.
    destruct (list_to_map entries !! k); [done|]. by apply lookup_insert_ne.
Qed.

(** X28: [setEnvVariables] sets every variable it is given, an undefined
    one to the text of [undefined], and leaves every other variable of the
    environment as it was: it never removes one. *)
Theorem setEnvVariables_lookup (envVariables : gmap string (option string))
    (env : gmap string string) (key : string) :
  setEnvVariables envVariables env !! key
  = match envVariables !! key with
    | Some v => Some (env_string v)
    | None => env !! key
    end.
Proof.
  unfold setEnvVariables.
  rewrite foldl_insert_lookup by apply NoDup_fst_map_to_list.
  by rewrite list_to_map_to_list.
Qed.

End ObjectLoopFacts.

(** *** assertEqualResponses *)

Module AssertEqualResponsesFacts.
Import Stub TestMetricsAssert AssertEqualResponses.

Section DeepEqual.

Variable deepEqual : value → value → bool.

(** X29: [assertEqualResponses] adds no failure exactly when
    [timestamps.providerDataReceivedUnixMs] of the response is a number and
    the response without its [meta] and [timestamps] compares equal to the
    expected one; the time the stream was established never stands in for
    a missing time of reception. *)
Theorem assertEqualResponses_passes_iff (t : list failure) (actual expected : value) :
  (assertEqualResponses deepEqual t actual expected).2 = t
  ↔ (∃ z, providerDataReceivedUnixMs actual = VNumber z)
    ∧ ∃ compared, (assertEqualResponses deepEqual t actual expected).1 = Return compared
                  ∧ deepEqual expected compared = true.
Proof.
  unfold assertEqualResponses.
  destruct actual as [| | | | | |properties].
  1-6: (split; [intros Heq | by intros [[? ?] _]]); exfalso;
    cbn in Heq; unfold t_is in Heq; repeat case_match;
    apply (f_equal length) in Heq; rewrite ?length_app in Heq; cbn in Heq; lia.
  unfold providerDataStreamEstablishedUnixMs, providerDataReceivedUnixMs.
  cbn [optional_get fst snd].
  destruct (optional_get (get_prop properties (PString "timestamps"))
              "providerDataReceivedUnixMs") as [| | |z| | |received] eqn:Hreceived.
  4: { cbn [typeof nullish]. change (String.eqb "number" "number") with true.
       cbn [t_is]. split.
       - intros Heq. split; [by eexists|]. eexists. split; [done|].
         destruct (deepEqual _ _); [done|].
         apply (f_equal length) in Heq. rewrite length_app in Heq. cbn in Heq. lia.
       - intros [_ (compared & [= <-] & ->)]. done. }
  all: (split; [intros Heq | by intros [[? ?] _]]); exfalso;
    cbn in Heq; unfold t_is in Heq; repeat case_match;
    apply (f_equal length) in Heq; rewrite ?length_app in Heq; cbn in Heq; lia.
Qed.

Lemma lookup_delete_prop (properties : list (prop * value)) (name : string) (q : prop) :
  lookup_prop (delete_prop properties name) q
  = if decide (q = PString name) then None else lookup_prop properties q.
Proof.
  unfold delete_prop. induction properties as [|[k v] properties IH].
  - by case_decide.
  - destruct (decide (k = PString name)) as [->|Hk].
    + rewrite filter_cons_False by (cbn; tauto). rewrite IH. cbn [lookup_prop].
      repeat case_decide; congruence.
    + rewrite filter_cons_True by done. cbn [lookup_prop]. rewrite IH.
      repeat case_decide; congruence.
Qed.

(** X30: [assertEqualResponses] changes the response it is given: when it
    returns on an object, the object has lost its [meta] and its
    [timestamps] and kept every other property; and it throws exactly on a
    response that is null or undefined, after both type checks have
    failed and before anything is compared. *)
Theorem assertEqualResponses_strips_actual (t : list failure) (actual expected : value) :
  (∀ properties, actual = VObject properties →
     ∃ stripped,
       (assertEqualResponses deepEqual t actual expected).1 = Return (VObject stripped)
       ∧ ∀ q, lookup_prop stripped q
              = if decide (q = PString "meta" ∨ q = PString "timestamps")
                then None else lookup_prop properties q)
  ∧ ((∃ message, (assertEqualResponses deepEqual t actual expected).1 = Throw message)
     ↔ actual = VNull ∨ actual = VUndefined)
  ∧ (actual = VNull ∨ actual = VUndefined →
     (assertEqualResponses deepEqual t actual expected).2 = t ++ [IsNot; IsNot]).
Proof.
  split; [|split].
  - intros properties ->. eexists. split; [done|]. intros q.
    rewrite !lookup_delete_prop. repeat case_decide; try done; tauto.
  - split.
    + intros [message Hthrow]. destruct actual; try done; auto.
    + intros [-> | ->]; by eexists.
  - intros [-> | ->]; cbn; by rewrite <-app_assoc.
Qed.

End DeepEqual.

End AssertEqualResponsesFacts.

(** *** The properties on the service *)

Module AdapterScenarioFacts.
Import Harness HarnessFacts VirtualClock Scenario TestAdapterStart AdapterScenario.
Import DriverFacts TestAdapterFacts TestAdapterStartFacts.

Lemma waitUntilResolved_returns_first_value_witness :
  waitUntilResolved (λ _, false) 5 (λ s, Returned completed_jobs s) (mkState started [])
  = Returned 1%nat (advance 2 (mkState started []))
  ∧ clock_advances (trace (advance 2 (mkState started [])))
    = (clock_advances (trace (mkState started [])) + 2)%nat
  ∧ ∀ w s',
      waitUntilResolved (λ _, false) 5 (λ s, Returned completed_jobs s)
        (mkState started []) = Returned w s' →
      (clock_advances (trace (mkState started [])) < clock_advances (trace s'))%nat.
Proof.
  apply (waitUntilResolved_returns_first_value (λ _, false) 5
           (λ s, Returned completed_jobs s) completed_jobs
           (mkState started []) (mkState started []) 1 1%nat).
  - reflexivity.
  - lia.
  - intros j Hj. assert (j = 1%nat) as -> by lia. exact I.
  - reflexivity.
  - reflexivity.
Defined.

Lemma waitUntilResolved_swallows_exception_witness :
  waitUntilResolved (T := nat) (λ _, false) 5 (λ s, Thrown "refused" s)
    (mkState started [])
  = Hung (advance 5 (mkState started []))
  ∧ clock_advances (trace (advance 5 (mkState started [])))
    = (clock_advances (trace (mkState started [])) + 5)%nat.
Proof.
  apply (waitUntilResolved_swallows_exception (T := nat) (λ _, false) 5
           (λ s, Thrown "refused" s) "refused" (mkState started [])
           (mkState started [])).
  reflexivity.
Defined.

Lemma runPeriodic_immediate_witness :
  ∃ s', runPeriodicAsyncBackgroundExecution 0 1000 2
          (λ i, pure_check (λ _ : service, true)) (mkState started []) = Returned tt s'
        ∧ world s' = Nat.iter (Z.to_nat 2) (tickAsync 1000) (world (mkState started []))
        ∧ trace s' = trace (mkState started [])
                     ++ periodic_trace 1000 0 (replicate (Z.to_nat 2) [])
        ∧ (2 ≤ 0 → s' = mkState started []).
Proof.
  apply (runPeriodic_immediate 0 1000 2 (λ _ (_ : service), true) (mkState started [])).
  intros i w. reflexivity.
Defined.


Lemma waitForCache_returns_filled_witness :
  waitForCache cache_size 5 adapter (Some 0) (mkState started [])
  = Returned tt (advance 2 (mkState started []))
  ↔ ∃ c cache k,
      Harness.clock adapter = Some c
      ∧ Harness.mockCache adapter = Some cache
      ∧ (k ≤ 5)%nat
      ∧ (∀ j, (j < k)%nat →
              cache_size cache (Nat.iter j nextAsync (world (mkState started [])))
              < Z.max 1 (default 1 (Some 0)))
      ∧ Z.max 1 (default 1 (Some 0))
        ≤ cache_size cache (Nat.iter k nextAsync (world (mkState started [])))
      ∧ advance 2 (mkState started []) = advance k (mkState started []).
Proof.
  apply (waitForCache_returns_filled cache_size 5 adapter (Some 0)
           (mkState started []) (advance 2 (mkState started []))).
  intros n [= <-]. lia.
Defined.

Lemma waitForCache_without_mock_cache_witness :
  ∃ message,
    waitForCache cache_size 5 adapter_without_cache (Some 1) (mkState started [])
    = Thrown message (mkState started []).
Proof.
  apply (waitForCache_without_mock_cache cache_size 5 adapter_without_cache tt
           (Some 1) (mkState started [])).
  - reflexivity.
  - reflexivity.
Defined.

Lemma startBackground_two_requests_witness :
  inject_calls (trace (final_state background_run))
  = S (S (inject_calls (trace (mkState started []))))
  ∧ ∃ tr, trace (final_state background_run) = tr ++ [EvIsStatusCode (id 200) 200].
Proof.
  apply (startBackground_two_requests (Expected := unit) inject id cache_size 5
           adapter tt None None 200 (mkState started []) (final_state background_run)).
  vm_compute. reflexivity.
Defined.

Lemma startWithMockedCache_watched_cache_witness :
  ctx_testAdapter (mkContext (Some tt) (Some plain_adapter)) = Some plain_adapter
  ∧ Harness.clock plain_adapter = ctx_clock bare_context
  ∧ ∃ fresh s1,
      new_MockCache tt (mkState tt []) = Returned fresh s1
      ∧ Harness.mockCache plain_adapter
        = match Some plain_cache_dependencies ≫= (.!! "cache") with
          | Some cache => id cache
          | None => Some fresh
          end.
Proof.
  apply (startWithMockedCache_watched_cache ea_start new_MockCache Some id tt
           bare_context (Some plain_cache_dependencies) plain_adapter
           (mkContext (Some tt) (Some plain_adapter))
           (mkState tt []) (mkState tt [])).
  - intros c. reflexivity.
  - vm_compute. reflexivity.
Defined.

End AdapterScenarioFacts.
